(** * Concierge Services: billing-attribute extraction

    A shallow embedding of
    [custom_components/concierge_services/attribute_extractor.py].

    Python [str] values are sequences of Unicode code points, so a text is a
    [list N]; [len], slicing and the patterns all count code points.  The
    patterns of the module are abstract syntax trees of the fragment of
    Python's [re] syntax the module uses, run by a backtracking matcher with
    CPython's priorities: alternatives left to right, greedy repetition,
    leftmost start position. *)

From Stdlib Require Import NArith Lia Ascii String.
From stdpp Require Import gmap strings list fin_maps.

Local Open Scope N_scope.

(** ** Text *)

Abbreviation str := (list N).

(** [py] reads a literal of this file, which is UTF-8 encoded, as the Python
    string it denotes: one code point per encoded character. *)
Fixpoint utf8_decode (bs : list N) : str :=
  match bs with
  | [] => []
  | b0 :: t0 =>
    if b0 <? 128 then b0 :: utf8_decode t0
    else match t0 with
    | [] => [b0]
    | b1 :: t1 =>
      if b0 <? 224 then ((b0 - 192) * 64 + (b1 - 128)) :: utf8_decode t1
      else match t1 with
      | [] => [b0; b1]
      | b2 :: t2 =>
        if b0 <? 240
        then ((b0 - 224) * 4096 + (b1 - 128) * 64 + (b2 - 128)) :: utf8_decode t2
        else match t2 with
        | [] => [b0; b1; b2]
        | b3 :: t3 =>
          ((b0 - 240) * 262144 + (b1 - 128) * 4096 + (b2 - 128) * 64 + (b3 - 128))
            :: utf8_decode t3
        end
      end
    end
  end.

Fixpoint string_bytes (s : string) : list N :=
  match s with
  | EmptyString => []
  | String a s' => N_of_ascii a :: string_bytes s'
  end.

Definition py (s : string) : str := utf8_decode (string_bytes s).

Definition LF : N := 10.
Definition CR : N := 13.

(** Unicode white space, as [str.isspace], [str.strip] and the pattern
    escape [\s] of a [str] pattern take it. *)
Definition unicode_spaces : list N :=
  [9; 10; 11; 12; 13; 28; 29; 30; 31; 32; 133; 160; 5760;
   8192; 8193; 8194; 8195; 8196; 8197; 8198; 8199; 8200; 8201; 8202;
   8232; 8233; 8239; 8287; 12288].

Definition isspace (c : N) : bool := existsb (N.eqb c) unicode_spaces.

(** Lower-casing of a code point, as the pattern engine does it under
    [re.IGNORECASE].  The table is CPython's on every code point whose image
    is a letter that occurs in a pattern of this module (ASCII capitals, the
    Latin-1 capitals, U+0130 and the Kelvin and Angstrom signs); the engine
    only ever asks whether the image belongs to a pattern's character set, so
    the images of the remaining letters, none of which falls in such a set,
    are left as they are. *)
Definition unicode_tolower (c : N) : N :=
  if (65 <=? c) && (c <=? 90) then c + 32
  else if (192 <=? c) && (c <=? 222) && negb (c =? 215) then c + 32
  else if c =? 304 then 105
  else if c =? 8490 then 107
  else if c =? 8491 then 229
  else c.

(** The extra case equivalences of the pattern compiler ([i] and dotless i,
    [s] and long s), for the letters of this module's patterns. *)
Definition ignorecase_fixes (c : N) : list N :=
  if c =? 105 then [305]
  else if c =? 115 then [383]
  else if c =? 305 then [105]
  else if c =? 383 then [115]
  else [].

(** [s.strip()] *)
Fixpoint lstrip (s : str) : str :=
  match s with
  | c :: s' => if isspace c then lstrip s' else s
  | [] => []
  end.

Definition rstrip (s : str) : str := rev (lstrip (rev s)).

Definition strip (s : str) : str := rstrip (lstrip s).

(** ** Patterns *)

Inductive citem : Type :=
| CLit (c : N)            (* a character *)
| CRange (lo hi : N)      (* [lo-hi] *)
| CSpace.                 (* \s *)

Inductive regex : Type :=
| Eps
| Chr (neg : bool) (items : list citem)      (* a character set, [^...] when [neg] *)
| Seq (r1 r2 : regex)
| Alt (r1 r2 : regex)
| Rep (r : regex) (lo : nat) (hi : option nat)  (* greedy {lo,hi} *)
| Grp (i : nat) (r : regex).                 (* capturing group number [i] *)

(** Flags of [re.compile]: the module uses [re.IGNORECASE] or none. *)
Inductive flags : Type := NOFLAG | IGNORECASE.

Record pattern : Type := Pattern { p_re : regex; p_flags : flags }.

(** Membership of a code point in an item of a character set.  Without
    [IGNORECASE] it is literal.  With it the compiler replaces every
    character of the set by its lower case together with its extra
    equivalents, and the matcher tests the lower case of the text's character
    against the result. *)
Definition lit_ci (c u : N) : bool :=
  (u =? unicode_tolower c) || existsb (N.eqb u) (ignorecase_fixes (unicode_tolower c)).

Fixpoint range_ci (lo : N) (n : nat) (u : N) : bool :=
  match n with
  | O => false
  | S n' => lit_ci lo u || range_ci (N.succ lo) n' u
  end.

Definition item_in (f : flags) (t : N) (it : citem) : bool :=
  match f, it with
  | _, CSpace => isspace t
  | NOFLAG, CLit c => t =? c
  | NOFLAG, CRange lo hi => (lo <=? t) && (t <=? hi)
  | IGNORECASE, CLit c => lit_ci c (unicode_tolower t)
  | IGNORECASE, CRange lo hi =>
      range_ci lo (N.to_nat (N.succ hi - lo)) (unicode_tolower t)
  end.

Definition chr_in (f : flags) (neg : bool) (items : list citem) (t : N) : bool :=
  xorb neg (existsb (item_in f t) items).

(** ** The backtracking matcher

    [mtch f r pos s c k] matches [r] at the head of [s], which starts at
    offset [pos] of the text, with the groups [c] captured so far, and hands
    the offset, the rest and the groups to the continuation [k]; when [k]
    fails the matcher backtracks into [r].  The first success is the result,
    as in the engine of [re]. *)

Abbreviation groups := (gmap nat str).

(** The loop of a repetition over a [body], which is the matcher of the
    repeated pattern. *)
Section Repetition.
Context {R : Type}.
Variable body : N → str → groups → (N → str → groups → option R) → option R.
Variable k : N → str → groups → option R.

(** The optional iterations, at most [n] of them when [n] is a number,
    greedy: one more iteration is tried before the loop is left, and an
    iteration that consumes nothing is not taken.  [fl] bounds the number
    of iterations by the number of characters left. *)
Fixpoint rep_more (fl : str) (n : option nat) (pos : N) (s : str) (c : groups)
    : option R :=
  match fl, n with
  | [], _ | _, Some O => k pos s c
  | _ :: fl', _ =>
      match body pos s c
              (fun p' s' c' =>
                 if pos <? p' then rep_more fl' (pred <$> n) p' s' c' else None)
      with
      | Some x => Some x
      | None => k pos s c
      end
  end.

(** The [m] mandatory iterations, then the optional ones. *)
Fixpoint rep_must (m : nat) (n : option nat) (pos : N) (s : str) (c : groups)
    : option R :=
  match m with
  | O => rep_more s n pos s c
  | S m' => body pos s c (fun p' s' c' => rep_must m' n p' s' c')
  end.
End Repetition.

Section Matcher.
Context {R : Type}.
Variable f : flags.

Fixpoint mtch (r : regex) (pos : N) (s : str) (c : groups)
    (k : N → str → groups → option R) {struct r} : option R :=
  match r with
  | Eps => k pos s c
  | Chr neg items =>
      match s with
      | t :: s' => if chr_in f neg items t then k (N.succ pos) s' c else None
      | [] => None
      end
  | Seq r1 r2 => mtch r1 pos s c (fun p' s' c' => mtch r2 p' s' c' k)
  | Alt r1 r2 =>
      match mtch r1 pos s c k with
      | Some x => Some x
      | None => mtch r2 pos s c k
      end
  | Grp i r1 =>
      mtch r1 pos s c
        (fun p' s' c' => k p' s' (<[i := take (N.to_nat (p' - pos)) s]> c'))
  | Rep r1 lo hi =>
      rep_must (mtch r1) k lo ((fun h => (h - lo)%nat) <$> hi) pos s c
  end.
End Matcher.

(** A match object: [m.start()], [m.end()] and the captured groups;
    [m.group(i)] is [None] when group [i] took no part in the match. *)
Record Match : Type := { m_start : N; m_end : N; m_groups : groups }.

Definition group (m : Match) (i : nat) : option str := m_groups m !! i.

Definition match_at (p : pattern) (pos : N) (s : str) : option Match :=
  mtch (p_flags p) (p_re p) pos s ∅
    (fun e _ c => Some {| m_start := pos; m_end := e; m_groups := c |}).

(** [p.search(text)]: the match at the leftmost offset that has one.
    [search_from p pos s] scans the text from offset [pos], where [s] is
    what is left of it. *)
Fixpoint search_from (p : pattern) (pos : N) (s : str) : option Match :=
  match match_at p pos s with
  | Some m => Some m
  | None =>
      match s with
      | [] => None
      | _ :: s' => search_from p (N.succ pos) s'
      end
  end.

Definition re_search (p : pattern) (text : str) : option Match :=
  search_from p 0 text.

(** [p.finditer(text)]: the successive matches, none overlapping the one
    before, each search resuming where the last match ended.  After an empty
    match the scan resumes one character further. *)
Fixpoint finditer_from (fuel : nat) (p : pattern) (pos : N) (s : str) : list Match :=
  match fuel with
  | O => []
  | S fuel' =>
      match search_from p pos s with
      | None => []
      | Some m =>
          let s1 := drop (N.to_nat (m_end m - pos)) s in
          m :: (if m_start m <? m_end m
                then finditer_from fuel' p (m_end m) s1
                else match s1 with
                     | [] => []
                     | _ :: s2 => finditer_from fuel' p (N.succ (m_end m)) s2
                     end)
      end
  end.

Definition re_finditer (p : pattern) (text : str) : list Match :=
  finditer_from (S (length text)) p 0 text.

(** [re.sub(p, repl, s)] for a constant replacement: the text between the
    successive matches is kept and every match is replaced by [repl]. *)
Fixpoint sub_from (ms : list Match) (repl : str) (pos : N) (s : str) : str :=
  match ms with
  | [] => s
  | m :: ms' =>
      take (N.to_nat (m_start m - pos)) s ++ repl
        ++ sub_from ms' repl (m_end m) (drop (N.to_nat (m_end m - pos)) s)
  end.

Definition re_sub (p : pattern) (repl : str) (s : str) : str :=
  sub_from (re_finditer p s) repl 0 s.

(** Slices and length of a Python string. *)
Definition len (s : str) : N := N.of_nat (length s).
Definition slice_to (n : N) (s : str) : str := take (N.to_nat n) s.
Definition slice_from (n : N) (s : str) : str := drop (N.to_nat n) s.

(** ** Writing patterns *)

Definition code (s : string) : N := hd 0 (py s).

Definition c_ (s : string) : citem := CLit (code s).
Definition r_ (a b : string) : citem := CRange (code a) (code b).

Definition set (items : list citem) : regex := Chr false items.
Definition nset (items : list citem) : regex := Chr true items.

(** Concatenation, nested to the right whatever the nesting of its
    arguments: [(ab)c] and [a(bc)] are one pattern. *)
Fixpoint sapp (r1 r2 : regex) : regex :=
  match r1, r2 with
  | Eps, _ => r2
  | Seq a b, _ => Seq a (sapp b r2)
  | _, Eps => r1
  | _, _ => Seq r1 r2
  end.

Definition seq (rs : list regex) : regex := foldr sapp Eps rs.

Fixpoint alt (rs : list regex) : regex :=
  match rs with
  | [] => set []
  | [r] => r
  | r :: rs' => Alt r (alt rs')
  end.

Definition lit (s : string) : regex := seq ((fun c => set [CLit c]) <$> py s).

Definition opt (r : regex) : regex := Rep r 0 (Some 1%nat).
Definition star (r : regex) : regex := Rep r 0 None.
Definition plus (r : regex) : regex := Rep r 1 None.
Definition rep (r : regex) (lo hi : nat) : regex := Rep r lo (Some hi).
Definition atleast (r : regex) (lo : nat) : regex := Rep r lo None.

Definition digit : regex := set [r_ "0" "9"].
Definition ws : regex := set [CSpace].

(** ** Reading the concrete syntax

    [re_parse] reads a pattern written in the syntax of [re], for the
    constructs this module uses: literals, escapes of punctuation, [\s],
    [\n], [\r], character sets with ranges and negation, groups, [(?:...)],
    alternation, and the greedy quantifiers [?], [*], [+], [{m}], [{m,}],
    [{m,n}].  It fails on anything else.  Groups are numbered by their
    opening parenthesis, from 1. *)

Definition is_punct (c : N) : bool :=
  (c <? 48) || ((57 <? c) && (c <? 65)) || ((90 <? c) && (c <? 97))
  || ((122 <? c) && (c <? 128)).

(** The item that [\c] stands for. *)
Definition escape_item (c : N) : option citem :=
  if c =? 115 then Some CSpace                (* \s *)
  else if c =? 110 then Some (CLit LF)        (* \n *)
  else if c =? 114 then Some (CLit CR)        (* \r *)
  else if is_punct c then Some (CLit c)
  else None.

Fixpoint p_nat (acc : nat) (s : str) : nat * str :=
  match s with
  | t :: s' =>
      if (48 <=? t) && (t <=? 57)
      then p_nat (acc * 10 + N.to_nat (t - 48)) s'
      else (acc, s)
  | [] => (acc, s)
  end.

(** A quantifier after the atom [a], if there is one. *)
Definition p_quant (a : regex) (s : str) : option (regex * str) :=
  match s with
  | 63 :: s1 => Some (opt a, s1)              (* ? *)
  | 42 :: s1 => Some (star a, s1)             (* * *)
  | 43 :: s1 => Some (plus a, s1)             (* + *)
  | 123 :: s1 =>                              (* { *)
      let '(lo, s2) := p_nat 0 s1 in
      match s2 with
      | 125 :: s3 => Some (rep a lo lo, s3)
      | 44 :: 125 :: s3 => Some (atleast a lo, s3)
      | 44 :: s3 =>
          let '(hi, s4) := p_nat 0 s3 in
          match s4 with
          | 125 :: s5 => Some (rep a lo hi, s5)
          | _ => None
          end
      | _ => None
      end
  | _ => Some (a, s)
  end.

(** One character of a set, plain or escaped. *)
Definition p_item (s : str) : option (citem * str) :=
  match s with
  | 92 :: c :: s1 => it ← escape_item c; Some (it, s1)
  | 92 :: [] | [] => None
  | c :: s1 => Some (CLit c, s1)
  end.

(** The items of a set, up to the closing bracket. *)
Fixpoint p_items (fuel : nat) (s : str) : option (list citem * str) :=
  match fuel with
  | O => None
  | S fuel' =>
      match s with
      | 93 :: s1 => Some ([], s1)
      | _ =>
          '(it, s1) ← p_item s;
          match it, s1 with
          | CLit lo, 45 :: 93 :: _ =>
              '(its, s2) ← p_items fuel' s1; Some (it :: its, s2)
          | CLit lo, 45 :: s2 =>
              '(it2, s3) ← p_item s2;
              match it2 with
              | CLit hi => '(its, s4) ← p_items fuel' s3; Some (CRange lo hi :: its, s4)
              | _ => None
              end
          | _, _ => '(its, s2) ← p_items fuel' s1; Some (it :: its, s2)
          end
      end
  end.

Definition p_set (s : str) : option (regex * str) :=
  let '(neg, s1) := match s with 94 :: s1 => (true, s1) | _ => (false, s) end in
  '(its, s2) ← p_items (S (length s1)) s1;
  match its with
  | [] => None
  | _ => Some (Chr neg its, s2)
  end.

(** The characters that are not literals outside a set. *)
Definition is_special (c : N) : bool :=
  existsb (N.eqb c) [36; 40; 41; 42; 43; 46; 63; 91; 92; 93; 94; 123; 124; 125].

Fixpoint p_alt (fuel : nat) (s : str) (g : nat) : option (regex * str * nat) :=
  match fuel with
  | O => None
  | S fuel' =>
      '(r1, s1, g1) ← p_seq fuel' s g;
      match s1 with
      | 124 :: s2 => '(r2, s3, g2) ← p_alt fuel' s2 g1; Some (Alt r1 r2, s3, g2)
      | _ => Some (r1, s1, g1)
      end
  end
with p_seq (fuel : nat) (s : str) (g : nat) : option (regex * str * nat) :=
  match fuel with
  | O => None
  | S fuel' =>
      match s with
      | [] | 124 :: _ | 41 :: _ => Some (Eps, s, g)
      | _ =>
          '(a, s1, g1) ← p_atom fuel' s g;
          '(q, s2) ← p_quant a s1;
          '(r, s3, g2) ← p_seq fuel' s2 g1;
          Some (sapp q r, s3, g2)
      end
  end
with p_atom (fuel : nat) (s : str) (g : nat) : option (regex * str * nat) :=
  match fuel with
  | O => None
  | S fuel' =>
      match s with
      | 40 :: 63 :: 58 :: s1 =>                (* (?: *)
          '(r, s2, g1) ← p_alt fuel' s1 g;
          match s2 with
          | 41 :: s3 => Some (r, s3, g1)
          | _ => None
          end
      | 40 :: 63 :: _ => None
      | 40 :: s1 =>                            (* ( *)
          '(r, s2, g1) ← p_alt fuel' s1 (S g);
          match s2 with
          | 41 :: s3 => Some (Grp g r, s3, g1)
          | _ => None
          end
      | 91 :: s1 => '(r, s2) ← p_set s1; Some (r, s2, g)
      | 92 :: c :: s1 => it ← escape_item c; Some (Chr false [it], s1, g)
      | c :: s1 => if is_special c then None else Some (Chr false [CLit c], s1, g)
      | [] => None
      end
  end.

Definition re_parse (pat : string) : option regex :=
  match p_alt (4 * S (length (py pat))) (py pat) 1 with
  | Some (r, [], _) => Some r
  | _ => None
  end.

(** ** The pattern tables of the module *)

(** Patterns for billing period dates (start and end); the three are used
    with [re.IGNORECASE]:
    - [([0-9]{1,2}[/-][0-9]{1,2}[/-][0-9]{2,4})]
    - [([0-9]{1,2}\s+de\s+[a-zA-Z]+\s+de\s+[0-9]{4})]
    - [([A-Za-z]+\s+[0-9]{1,2},?\s+[0-9]{4})] *)
Definition DATE_PATTERNS : list regex :=
  [ Grp 1 (seq [rep digit 1 2; set [c_ "/"; c_ "-"]; rep digit 1 2;
                set [c_ "/"; c_ "-"]; rep digit 2 4]);
    Grp 1 (seq [rep digit 1 2; plus ws; lit "de"; plus ws;
                plus (set [r_ "a" "z"; r_ "A" "Z"]); plus ws; lit "de"; plus ws;
                rep digit 4 4]);
    Grp 1 (seq [plus (set [r_ "A" "Z"; r_ "a" "z"]); plus ws; rep digit 1 2;
                opt (lit ","); plus ws; rep digit 4 4]) ].

(** Label patterns that precede a total-amount value:
    [(?:total\s+a\s+pagar|monto\s+total|total\s+factura|importe\s+total
       |total\s+cuenta|valor\s+a\s+pagar|total)[:\s]+] *)
Definition _TOTAL_LABELS : pattern :=
  Pattern
    (seq [alt [seq [lit "total"; plus ws; lit "a"; plus ws; lit "pagar"];
               seq [lit "monto"; plus ws; lit "total"];
               seq [lit "total"; plus ws; lit "factura"];
               seq [lit "importe"; plus ws; lit "total"];
               seq [lit "total"; plus ws; lit "cuenta"];
               seq [lit "valor"; plus ws; lit "a"; plus ws; lit "pagar"];
               lit "total"];
          plus (set [c_ ":"; CSpace])])
    IGNORECASE.

(** Label patterns that precede a customer/account number:
    [(?:n[úu]mero\s+de\s+(?:cuenta|cliente)|n[°º]\s*(?:cuenta|cliente)
       |cuenta\s+n[°º]?|cliente\s+n[°º]?|customer\s+(?:number|no\.?)
       |account\s+(?:number|no\.?))[:\s]+] *)
Definition _CUSTOMER_LABELS : pattern :=
  Pattern
    (seq [alt [seq [lit "n"; set [c_ "ú"; c_ "u"]; lit "mero"; plus ws; lit "de";
                    plus ws; alt [lit "cuenta"; lit "cliente"]];
               seq [lit "n"; set [c_ "°"; c_ "º"]; star ws;
                    alt [lit "cuenta"; lit "cliente"]];
               seq [lit "cuenta"; plus ws; lit "n"; opt (set [c_ "°"; c_ "º"])];
               seq [lit "cliente"; plus ws; lit "n"; opt (set [c_ "°"; c_ "º"])];
               seq [lit "customer"; plus ws;
                    alt [lit "number"; seq [lit "no"; opt (lit ".")]]];
               seq [lit "account"; plus ws;
                    alt [lit "number"; seq [lit "no"; opt (lit ".")]]]];
          plus (set [c_ ":"; CSpace])])
    IGNORECASE.

(** Label patterns that precede an address value:
    [(?:direcci[oó]n(?:\s+de\s+suministro)?|domicilio|address)[:\s]+] *)
Definition _ADDRESS_LABELS : pattern :=
  Pattern
    (seq [alt [seq [lit "direcci"; set [c_ "o"; c_ "ó"]; lit "n";
                    opt (seq [plus ws; lit "de"; plus ws; lit "suministro"])];
               lit "domicilio";
               lit "address"];
          plus (set [c_ ":"; CSpace])])
    IGNORECASE.

(** The number of a currency amount:
    [[0-9]{1,3}(?:[.,][0-9]{3})*(?:[.,][0-9]{1,2})?] *)
Definition amount_number : regex :=
  seq [rep digit 1 3;
       star (seq [set [c_ "."; c_ ","]; rep digit 3 3]);
       opt (seq [set [c_ "."; c_ ","]; rep digit 1 2])].

(** Currency amount pattern:
    [\$\s*(number)|(number)\s*(?:CLP|USD|EUR|pesos?)] *)
Definition _AMOUNT_RE : pattern :=
  Pattern
    (alt [seq [lit "$"; star ws; Grp 1 amount_number];
          seq [Grp 2 amount_number; star ws;
               alt [lit "CLP"; lit "USD"; lit "EUR"; seq [lit "peso"; opt (lit "s")]]]])
    IGNORECASE.

(** [([0-9][0-9.\-]{0,19})] *)
Definition customer_digits : pattern :=
  Pattern (Grp 1 (seq [digit; rep (set [r_ "0" "9"; c_ "."; c_ "-"]) 0 19])) NOFLAG.

(** [([^\n\r]{5,120})] *)
Definition address_line : pattern :=
  Pattern (Grp 1 (rep (nset [CLit LF; CLit CR]) 5 120)) NOFLAG.

(** [\s+] *)
Definition spaces : pattern := Pattern (plus ws) NOFLAG.

(** The folio patterns of the subject line, used with [re.IGNORECASE]:
    [folio[:\s]*([0-9]{6,})], [n[úu]mero[:\s]*([0-9]{6,})],
    [boleta[:\s]*([0-9]{6,})], [factura[:\s]*([0-9]{6,})] *)
Definition folio_patterns : list regex :=
  [ seq [lit "folio"; star (set [c_ ":"; CSpace]); Grp 1 (atleast digit 6)];
    seq [lit "n"; set [c_ "ú"; c_ "u"]; lit "mero"; star (set [c_ ":"; CSpace]);
         Grp 1 (atleast digit 6)];
    seq [lit "boleta"; star (set [c_ ":"; CSpace]); Grp 1 (atleast digit 6)];
    seq [lit "factura"; star (set [c_ ":"; CSpace]); Grp 1 (atleast digit 6)] ].

(** [([0-9]{1,2}\.[0-9]{3}\.[0-9]{3}-[0-9kK])] *)
Definition rut_pattern : pattern :=
  Pattern (Grp 1 (seq [rep digit 1 2; lit "."; rep digit 3 3; lit "."; rep digit 3 3;
                       lit "-"; set [r_ "0" "9"; c_ "k"; c_ "K"]])) NOFLAG.

(** ** Python values, exceptions and the attribute map *)

(** What the module stores in a dictionary or returns from an extractor: a
    string or [None]. *)
Inductive pyval : Type :=
| PyNone
| PyStr (s : str).

Definition of_option (o : option str) : pyval :=
  match o with
  | Some s => PyStr s
  | None => PyNone
  end.

(** Truth value of [if v:]; [a or b]. *)
Definition truthy (v : pyval) : bool :=
  match v with
  | PyStr (_ :: _) => true
  | _ => false
  end.

Definition py_or (a b : pyval) : pyval := if truthy a then a else b.

(** The exceptions the operations of the module can raise. *)
Inductive exn : Type :=
| AttributeError     (* a method of [None] *)
| TypeError          (* [None] where a string is expected *)
| IndexError
| OtherError (n : nat).

Inductive outcome (A : Type) : Type :=
| Returns (a : A)
| Raises (e : exn).
Arguments Returns {A} a.
Arguments Raises {A} e.

#[global] Instance outcome_ret : MRet outcome := fun A a => Returns a.
#[global] Instance outcome_bind : MBind outcome := fun A B k x =>
  match x with
  | Returns a => k a
  | Raises e => Raises e
  end.

(** [v.strip()]: an [AttributeError] on [None]. *)
Definition py_strip (v : pyval) : outcome str :=
  match v with
  | PyStr s => Returns (strip s)
  | PyNone => Raises AttributeError
  end.

(** [re.sub(p, repl, v)]: a [TypeError] on [None]. *)
Definition py_re_sub (p : pattern) (repl : str) (v : pyval) : outcome str :=
  match v with
  | PyStr s => Returns (re_sub p repl s)
  | PyNone => Raises TypeError
  end.

(** [m.group(i)] as a Python value *)
Definition group_val (m : Match) (i : nat) : pyval := of_option (group m i).

(** The attribute map: field name to value. *)
Abbreviation AttributeMap := (gmap string pyval).

(** [d.update(e)]: the entries of [e] replace those of [d]. *)
Definition update (d e : AttributeMap) : AttributeMap := e ∪ d.

(** ** The field extractors *)

(** [(amount_match.group(1) or amount_match.group(2) or "").strip()] *)
Definition amount_raw (amount_match : Match) : str :=
  match py_or (py_or (group_val amount_match 1) (group_val amount_match 2)) (PyStr []) with
  | PyStr s => strip s
  | PyNone => []
  end.

(** The loop of [_extract_total_amount] over the label matches: [Some raw]
    when an iteration returns, [None] when the loop runs to its end. *)
Fixpoint total_loop (text : str) (label_matches : list Match) : option str :=
  match label_matches with
  | [] => None
  | label_match :: more =>
      let rest := slice_from (m_end label_match) text in
      match re_search _AMOUNT_RE (slice_to 60 rest) with
      | Some amount_match =>
          let raw := amount_raw amount_match in
          if truthy (PyStr raw) then Some raw else total_loop text more
      | None => total_loop text more
      end
  end.

(** Return the total amount due found in [text], or [None]. *)
Definition _extract_total_amount (text : str) : pyval :=
  match total_loop text (re_finditer _TOTAL_LABELS text) with
  | Some raw => PyStr raw
  | None =>
      (* Fallback: first currency amount in the whole text *)
      match re_search _AMOUNT_RE text with
      | Some amount_match => py_or (PyStr (amount_raw amount_match)) PyNone
      | None => PyNone
      end
  end.

(** The loop of [_extract_customer_number]. *)
Fixpoint customer_loop (text : str) (label_matches : list Match) : outcome pyval :=
  match label_matches with
  | [] => Returns PyNone
  | label_match :: more =>
      let rest := slice_from (m_end label_match) text in
      (* Grab first sequence of digits (possibly formatted with dots/dashes) *)
      match re_search customer_digits (slice_to 80 rest) with
      | Some num_match =>
          v ← py_strip (group_val num_match 1);
          Returns (PyStr v)
      | None => customer_loop text more
      end
  end.

(** Return the customer/account number found in [text], or [None]. *)
Definition _extract_customer_number (text : str) : outcome pyval :=
  customer_loop text (re_finditer _CUSTOMER_LABELS text).

(** The loop of [_extract_address]. *)
Fixpoint address_loop (text : str) (label_matches : list Match) : outcome pyval :=
  match label_matches with
  | [] => Returns PyNone
  | label_match :: more =>
      let rest := slice_from (m_end label_match) text in
      (* Take up to end-of-line, trimmed *)
      match re_search address_line rest with
      | Some line_match =>
          collapsed ← py_re_sub spaces (py " ") (group_val line_match 1);
          let value := strip collapsed in
          if truthy (PyStr value) then Returns (PyStr value) else address_loop text more
      | None => address_loop text more
      end
  end.

(** Return the service address found in [text], or [None]. *)
Definition _extract_address (text : str) : outcome pyval :=
  address_loop text (re_finditer _ADDRESS_LABELS text).

Definition _DATE_KEYS : list string := ["billing_period_start"; "billing_period_end"].

(** The inner loop of [_extract_dates]: [enumerate] numbers the matches of
    one pattern from [i], and the loop is left at the first index that has
    no key. *)
Fixpoint dates_matches (i : nat) (ms : list Match) (dates : AttributeMap)
    : outcome AttributeMap :=
  match ms with
  | [] => Returns dates
  | m :: ms' =>
      if (length _DATE_KEYS <=? i)%nat then Returns dates
      else
        match _DATE_KEYS !! i with
        | None => Raises IndexError
        | Some key =>
            match dates !! key with
            | Some _ => dates_matches (S i) ms' dates
            | None =>
                v ← py_strip (group_val m 1);
                dates_matches (S i) ms' (<[key := PyStr v]> dates)
            end
        end
  end.

(** The outer loop of [_extract_dates], over the patterns. *)
Fixpoint dates_patterns (patterns : list regex) (text : str) (dates : AttributeMap)
    : outcome AttributeMap :=
  match patterns with
  | [] => Returns dates
  | pat :: more =>
      dates' ← dates_matches 0 (re_finditer (Pattern pat IGNORECASE) text) dates;
      dates_patterns more text dates'
  end.

(** Extract billing period start and end dates from [text]. *)
Definition _extract_dates (text : str) : outcome AttributeMap :=
  dates_patterns DATE_PATTERNS text ∅.

(** The loop of [_extract_from_subject] over the folio patterns, left at the
    first pattern that matches. *)
Fixpoint folio_loop (patterns : list regex) (subject : str) (attrs : AttributeMap)
    : AttributeMap :=
  match patterns with
  | [] => attrs
  | pat :: more =>
      match re_search (Pattern pat IGNORECASE) subject with
      | Some m => <["folio" := group_val m 1]> attrs
      | None => folio_loop more subject attrs
      end
  end.

(** Extract specific attributes from email subject line. *)
Definition _extract_from_subject (subject : str) : AttributeMap :=
  let attrs := folio_loop folio_patterns subject ∅ in
  match re_search rut_pattern subject with
  | Some m => <["rut_from_subject" := group_val m 1]> attrs
  | None => attrs
  end.

(** ** The aggregator *)

(** The statements of the [try] block run on the local dictionary
    [attributes]; a statement returns or raises, and what it has stored in
    the dictionary before raising stays there. *)
Definition block (A : Type) : Type := AttributeMap → outcome A * AttributeMap.

#[global] Instance block_ret : MRet block := fun A a attributes =>
  (Returns a, attributes).
#[global] Instance block_bind : MBind block := fun A B k x attributes =>
  match x attributes with
  | (Returns a, attributes') => k a attributes'
  | (Raises e, attributes') => (Raises e, attributes')
  end.

(** A call of an extractor: it does not touch [attributes]. *)
Definition call {A : Type} (x : outcome A) : block A := fun attributes =>
  (x, attributes).

(** [attributes.update(d)] and [attributes[key] = v] *)
Definition attributes_update (d : AttributeMap) : block unit := fun attributes =>
  (Returns (), update attributes d).
Definition attributes_set (key : string) (v : pyval) : block unit := fun attributes =>
  (Returns (), <[key := v]> attributes).

(** The records of [_LOGGER.debug]: the only trace a call leaves outside its
    result. *)
Abbreviation Log := (list exn).

Section Aggregator.
(** The five extractors the aggregator calls.  They are variables so that
    the [try]/[except] of the aggregator can be studied with extractors
    that raise. *)
Variable extract_from_subject : str → outcome AttributeMap.
Variable extract_dates : str → outcome AttributeMap.
Variable extract_total_amount : str → outcome pyval.
Variable extract_customer_number : str → outcome pyval.
Variable extract_address : str → outcome pyval.

(** [combined = f"{subject}\n\n{body}"], capped for performance. *)
Definition combine (subject body : str) : str :=
  let combined := subject ++ [LF; LF] ++ body in
  if 15000 <? len combined then slice_to 15000 combined else combined.

Definition try_block (subject body : str) : block unit :=
  (* Folio, from subject line *)
  subject_attrs ← call (extract_from_subject subject);
  attributes_update subject_attrs;;
  let combined := combine subject body in
  (* Billing period dates *)
  dates ← call (extract_dates combined);
  attributes_update dates;;
  (* Total amount *)
  total ← call (extract_total_amount combined);
  (if truthy total then attributes_set "total_amount" total else mret ());;
  (* Customer / account number *)
  customer ← call (extract_customer_number combined);
  (if truthy customer then attributes_set "customer_number" customer else mret ());;
  (* Service address *)
  address ← call (extract_address combined);
  (if truthy address then attributes_set "address" address else mret ()).

(** [try: ... except Exception as err: _LOGGER.debug(...)], then
    [return attributes]. *)
Definition extract_attributes_with (subject body : str) (log : Log)
    : outcome AttributeMap * Log :=
  match try_block subject body ∅ with
  | (Returns _, attributes) => (Returns attributes, log)
  | (Raises err, attributes) => (Returns attributes, log ++ [err])
  end.
End Aggregator.

(** Extract billing attributes from email subject and body. *)
Definition extract_attributes_from_email_body (subject body : str) (log : Log)
    : outcome AttributeMap * Log :=
  extract_attributes_with
    (fun subject => Returns (_extract_from_subject subject))
    _extract_dates
    (fun text => Returns (_extract_total_amount text))
    _extract_customer_number
    _extract_address
    subject body log.

(** The attribute map a call returns. *)
Definition attributes_of (r : outcome AttributeMap * Log) : AttributeMap :=
  match r.1 with
  | Returns attributes => attributes
  | Raises _ => ∅
  end.

Definition extracted (subject body : str) : AttributeMap :=
  attributes_of (extract_attributes_from_email_body subject body []).

(** ** What a pattern denotes *)

(** [lang f r w]: the word [w] is a word of the pattern [r] under the flags
    [f]. *)
Fixpoint lang (f : flags) (r : regex) (w : str) : Prop :=
  match r with
  | Eps => w = []
  | Chr neg items => ∃ t, w = [t] ∧ chr_in f neg items t = true
  | Seq r1 r2 => ∃ u v, w = u ++ v ∧ lang f r1 u ∧ lang f r2 v
  | Alt r1 r2 => lang f r1 w ∨ lang f r2 w
  | Rep r1 lo hi =>
      ∃ ws, w = concat ws ∧ Forall (lang f r1) ws ∧ (lo ≤ length ws)%nat ∧
            match hi with
            | Some h => (length ws ≤ Nat.max lo h)%nat
            | None => True
            end
  | Grp _ r1 => lang f r1 w
  end.

(** Every group of [r] captures words that satisfy [P]. *)
Fixpoint grp_ok (f : flags) (P : str → Prop) (r : regex) : Prop :=
  match r with
  | Grp _ r1 => (∀ w, lang f r1 w → P w) ∧ grp_ok f P r1
  | Seq r1 r2 | Alt r1 r2 => grp_ok f P r1 ∧ grp_ok f P r2
  | Rep r1 _ _ => grp_ok f P r1
  | Eps | Chr _ _ => True
  end.

(** Group [i] takes part in every match of [r]. *)
Fixpoint sets (r : regex) (i : nat) : bool :=
  match r with
  | Grp j r1 => (i =? j)%nat || sets r1 i
  | Seq r1 r2 => sets r1 i || sets r2 i
  | Alt r1 r2 => sets r1 i && sets r2 i
  | Rep r1 (S _) _ => sets r1 i
  | Rep _ O _ | Eps | Chr _ _ => false
  end.

(** [r] may match the empty word. *)
Fixpoint nullable (r : regex) : bool :=
  match r with
  | Eps => true
  | Chr _ _ => false
  | Seq r1 r2 => nullable r1 && nullable r2
  | Alt r1 r2 => nullable r1 || nullable r2
  | Rep r1 lo _ => match lo with O => true | S _ => nullable r1 end
  | Grp _ r1 => nullable r1
  end.

(** The character sets that can give the first, and the last, character of
    a word of [r]. *)
Fixpoint firsts (r : regex) : list (bool * list citem) :=
  match r with
  | Eps => []
  | Chr neg items => [(neg, items)]
  | Seq r1 r2 => firsts r1 ++ (if nullable r1 then firsts r2 else [])
  | Alt r1 r2 => firsts r1 ++ firsts r2
  | Rep r1 _ _ | Grp _ r1 => firsts r1
  end.

Fixpoint lasts (r : regex) : list (bool * list citem) :=
  match r with
  | Eps => []
  | Chr neg items => [(neg, items)]
  | Seq r1 r2 => lasts r2 ++ (if nullable r2 then lasts r1 else [])
  | Alt r1 r2 => lasts r1 ++ lasts r2
  | Rep r1 _ _ | Grp _ r1 => lasts r1
  end.

(** No white space belongs to the set. *)
Definition set_nonspace (f : flags) (cs : bool * list citem) : bool :=
  forallb (fun t => negb (chr_in f cs.1 cs.2 t)) unicode_spaces.

(** The words of [r] are not empty and neither begin nor end with white
    space. *)
Definition solid (f : flags) (r : regex) : bool :=
  negb (nullable r) && forallb (set_nonspace f) (firsts r)
    && forallb (set_nonspace f) (lasts r).

(** All groups of [r] have solid words. *)
Fixpoint grp_solid (f : flags) (r : regex) : bool :=
  match r with
  | Grp _ r1 => solid f r1 && grp_solid f r1
  | Seq r1 r2 | Alt r1 r2 => grp_solid f r1 && grp_solid f r2
  | Rep r1 _ _ => grp_solid f r1
  | Eps | Chr _ _ => true
  end.

(** A word that is kept whole by [strip] and is not empty. *)
Definition solid_word (w : str) : Prop := w ≠ [] ∧ strip w = w.

Definition caps_ok (P : str → Prop) (c : groups) : Prop :=
  ∀ i v, c !! i = Some v → P v.

(** What a successful run of a matcher [body] for the words [L] tells: it
    has consumed a word of [L], kept the groups well-formed, set the groups
    of [always] and called its continuation, which gave the result. *)
Definition sound_for {R : Type} (P : str → Prop) (L : str → Prop) (always : nat → bool)
    (body : N → str → groups → (N → str → groups → option R) → option R) : Prop :=
  ∀ pos s c k res,
    caps_ok P c → body pos s c k = Some res →
    ∃ w s' c',
      s = w ++ s' ∧ L w ∧ caps_ok P c' ∧
      (∀ i, is_Some (c !! i) → is_Some (c' !! i)) ∧
      (∀ i, always i = true → is_Some (c' !! i)) ∧
      k (pos + len w) s' c' = Some res.

(** [m] is a match of [p] somewhere. *)
Definition matched (p : pattern) (m : Match) : Prop :=
  ∃ pos s, match_at p pos s = Some m.


(** ** Reading the date slots *)

(** The date a match stands for: [match.group(1).strip()]. *)
Definition date_value (m : Match) : pyval := PyStr (strip (default [] (group m 1))).

(** The occurrence of rank [i] that the date extraction keeps: that of the
    first pattern, in the order of the table, that has occurrences up to
    rank [i]. *)
Definition occurrence (patterns : list regex) (text : str) (i : nat) : option Match :=
  head (omap (fun pat => re_finditer (Pattern pat IGNORECASE) text !! i) patterns).

(** The occurrences of all the patterns, in pattern-iteration order. *)
Definition date_occurrences (patterns : list regex) (text : str) : list Match :=
  patterns ≫= (fun pat => re_finditer (Pattern pat IGNORECASE) text).

(** The slots filled by the first two of them. *)
Definition union_slots (patterns : list regex) (text : str) : AttributeMap :=
  list_to_map (zip _DATE_KEYS (date_value <$> date_occurrences patterns text)).

(** [dates[key] = ...] under [if key not in dates], for an occurrence that
    may be missing. *)
Definition fill (key : string) (o : option Match) (dates : AttributeMap) : AttributeMap :=
  match dates !! key, o with
  | None, Some m => <[key := date_value m]> dates
  | _, _ => dates
  end.

(** ** Reading the result of the aggregator *)

(** What the three extractors that could raise return. *)
Definition value_of {A : Type} (d : A) (x : outcome A) : A :=
  match x with
  | Returns a => a
  | Raises _ => d
  end.

Definition dates_of (text : str) : AttributeMap := value_of ∅ (_extract_dates text).
Definition customer_of (text : str) : pyval := value_of PyNone (_extract_customer_number text).
Definition address_of (text : str) : pyval := value_of PyNone (_extract_address text).

(** [if v: attributes[key] = v] *)
Definition store (key : string) (v : pyval) (attributes : AttributeMap) : AttributeMap :=
  if truthy v then <[key := v]> attributes else attributes.

(** A value of the map that signals a found field: a string that is not
    empty. *)
Definition found (v : pyval) : Prop := ∃ s, v = PyStr s ∧ s ≠ [].

(** ** The claims read on the model *)

(** The date slots as filled by the first two occurrences across the union
    of the patterns, in pattern-iteration order. *)
Definition dates_by_union (text : str) : Prop :=
  _extract_dates text = Returns (union_slots DATE_PATTERNS text).

#[global] Instance outcome_fmap : FMap outcome := fun A B g x =>
  match x with
  | Returns a => Returns (g a)
  | Raises e => Raises e
  end.

(** The five steps of the aggregator: what each extractor gives, as the
    change it makes to [attributes]. *)
Definition steps
    (extract_from_subject extract_dates : str → outcome AttributeMap)
    (extract_total_amount extract_customer_number extract_address : str → outcome pyval)
    (subject body : str) : list (outcome (AttributeMap → AttributeMap)) :=
  let combined := combine subject body in
  [ (fun subject_attrs attributes => update attributes subject_attrs)
      <$> extract_from_subject subject;
    (fun dates attributes => update attributes dates) <$> extract_dates combined;
    store "total_amount" <$> extract_total_amount combined;
    store "customer_number" <$> extract_customer_number combined;
    store "address" <$> extract_address combined ].

(** The attributes accumulated before the first step that raises, and the
    exception of that step. *)
Fixpoint accumulated (l : list (outcome (AttributeMap → AttributeMap)))
    (attributes : AttributeMap) : AttributeMap :=
  match l with
  | [] => attributes
  | Returns g :: more => accumulated more (g attributes)
  | Raises _ :: _ => attributes
  end.

Fixpoint raised (l : list (outcome (AttributeMap → AttributeMap))) : list exn :=
  match l with
  | [] => []
  | Returns _ :: more => raised more
  | Raises e :: _ => [e]
  end.

(** The first 15,000 characters of [subject + "\n\n" + body]. *)
Definition capped (subject body : str) : str :=
  slice_to 15000 (subject ++ [LF; LF] ++ body).

(** Every value of the result is matched within the cap: two inputs, the
    first one longer than the cap, that agree on the capped text give the
    same attributes. *)
Definition within_cap (subject body subject' body' : str) : Prop :=
  15000 < len (subject ++ [LF; LF] ++ body) →
  capped subject body = capped subject' body' →
  extracted subject body = extracted subject' body'.

(** 15,000 spaces. *)
Definition padding : str := repeat 32 (N.to_nat 15000).

(** The patterns inside the groups of [r]. *)
Fixpoint group_bodies (r : regex) : list regex :=
  match r with
  | Grp _ r1 => r1 :: group_bodies r1
  | Seq r1 r2 | Alt r1 r2 => group_bodies r1 ++ group_bodies r2
  | Rep r1 _ _ => group_bodies r1
  | Eps | Chr _ _ => []
  end.

(** An ASCII digit. *)
Definition is_digit (t : N) : Prop := 48 ≤ t ≤ 57.

(** ** Reading the total amount *)

(** The 60 characters that follow a label match. *)
Definition window (text : str) (label_match : Match) : str :=
  slice_to 60 (slice_from (m_end label_match) text).

(** The number of a currency-amount match: the group that took part, that
    of the [$] form or that of the form with a currency marker. *)
Definition amount_token (amount_match : Match) : str :=
  default [] (match group amount_match 1 with
              | Some v => Some v
              | None => group amount_match 2
              end).

(** The amount of the first label occurrence whose window holds one. *)
Definition labelled_amount (text : str) : option Match :=
  head (omap (fun label_match => re_search _AMOUNT_RE (window text label_match))
          (re_finditer _TOTAL_LABELS text)).

(** [m] is an occurrence of [p] in [text]: a word of [p] that stands in
    [text] between the offsets [m.start()] and [m.end()]. *)
Definition occurs (p : pattern) (text : str) (m : Match) : Prop :=
  ∃ pre w post,
    text = pre ++ w ++ post ∧ m_start m = len pre ∧ m_end m = len (pre ++ w) ∧
    lang (p_flags p) (p_re p) w ∧ slice_from (m_end m) text = post.

(** [m] is the first match of [p] in [text]: [p] matches at the offset
    [m.start()] and at no offset before it. *)
Definition first_match (p : pattern) (text : str) (m : Match) : Prop :=
  ∃ pre post,
    text = pre ++ post ∧ match_at p (len pre) post = Some m ∧
    ∀ p1 p2, pre = p1 ++ p2 → p2 ≠ [] → match_at p (len p1) (p2 ++ post) = None.

(** The matches of a list stand from left to right, none overlapping an
    earlier one. *)
Definition left_to_right (ms : list Match) : Prop :=
  ∀ i j mi mj, (i < j)%nat → ms !! i = Some mi → ms !! j = Some mj →
               m_end mi ≤ m_start mj.

(** No currency amount in the window of a label match. *)
Definition no_amount (text : str) (label_match : Match) : Prop :=
  re_search _AMOUNT_RE (window text label_match) = None.

(** ** Reading the address *)

Definition is_break (t : N) : bool := (t =? LF) || (t =? CR).

(** The longest prefix of [s] whose characters satisfy [p]. *)
Fixpoint take_while (p : N → bool) (s : str) : str :=
  match s with
  | t :: s' => if p t then t :: take_while p s' else []
  | [] => []
  end.


(** A word cut to at most [n] characters when [n] is a number. *)
Definition bounded (n : option nat) (s : str) : str :=
  match n with
  | Some h => take h s
  | None => s
  end.

(** [value = re.sub(r"\s+", " ", captured).strip()], when it is not
    empty. *)
Definition address_value (captured : str) : option str :=
  match strip (re_sub spaces (py " ") captured) with
  | [] => None
  | value => Some value
  end.

(** The address that one label match gives in the code: the first run of 5
    to 120 characters without a line break found after the label, collapsed
    and trimmed. *)
Definition address_candidate (text : str) (label_match : Match) : option str :=
  line_match ← re_search address_line (slice_from (m_end label_match) text);
  address_value (default [] (group line_match 1)).



(** The patterns of a table all capture their match in group 1, and the
    captured text is solid. *)
Definition table_ok (patterns : list regex) : Prop :=
  Forall (fun r => grp_solid IGNORECASE r = true ∧ sets r 1 = true) patterns.


(** The field names of the attribute map. *)
Definition FIELDS : gset string :=
  {[ "folio"; "rut_from_subject"; "billing_period_start"; "billing_period_end";
     "total_amount"; "customer_number"; "address" ]}.

(** The number that one customer label gives: the first run of a digit and
    up to 19 digits, dots or dashes in the 80 characters after the label. *)
Definition customer_candidate (text : str) (label_match : Match) : option str :=
  num_match ← re_search customer_digits (slice_to 80 (slice_from (m_end label_match) text));
  group num_match 1.


(** ** More of the module: what the values are made of *)

(** [v] stands in [s] as it is: a run of consecutive characters of [s]. *)
Definition substring (v s : str) : Prop := ∃ a b, s = a ++ v ++ b.

(** What a successful run of a matcher [body] tells about the groups: it has
    consumed a word, and every group it has set holds a piece of that
    word. *)
Definition captures_in {R : Type}
    (body : N → str → groups → (N → str → groups → option R) → option R) : Prop :=
  ∀ pos s c k res,
    body pos s c k = Some res →
    ∃ w s' c',
      s = w ++ s' ∧
      (∀ i v, c' !! i = Some v → c !! i = Some v ∨ substring v w) ∧
      k (pos + len w) s' c' = Some res.

(** The character sets of [r]: every character of a word of [r] belongs to
    one of them. *)
Fixpoint charsets (r : regex) : list (bool * list citem) :=
  match r with
  | Eps => []
  | Chr neg items => [(neg, items)]
  | Seq r1 r2 | Alt r1 r2 => charsets r1 ++ charsets r2
  | Rep r1 _ _ | Grp _ r1 => charsets r1
  end.

(** The least and the greatest length of the words of [r]; no greatest
    length under an unbounded repetition. *)
Fixpoint min_len (r : regex) : nat :=
  match r with
  | Eps => 0
  | Chr _ _ => 1
  | Seq r1 r2 => min_len r1 + min_len r2
  | Alt r1 r2 => Nat.min (min_len r1) (min_len r2)
  | Rep r1 lo _ => lo * min_len r1
  | Grp _ r1 => min_len r1
  end.

Fixpoint max_len (r : regex) : option nat :=
  match r with
  | Eps => Some 0%nat
  | Chr _ _ => Some 1%nat
  | Seq r1 r2 => a ← max_len r1; b ← max_len r2; Some (a + b)%nat
  | Alt r1 r2 => a ← max_len r1; b ← max_len r2; Some (Nat.max a b)
  | Rep r1 lo hi => a ← max_len r1; h ← hi; Some (Nat.max lo h * a)%nat
  | Grp _ r1 => max_len r1
  end.

(** The characters of an amount: digits and the two separators. *)
Definition amount_char (t : N) : Prop := is_digit t ∨ t = 46 ∨ t = 44.

(** The characters of a customer number: digits, dots and dashes. *)
Definition number_char (t : N) : Prop := is_digit t ∨ t = 46 ∨ t = 45.

(** The characters of a tax ID: digits, dots, the dash and the letter K. *)
Definition rut_char (t : N) : Prop := is_digit t ∨ t = 46 ∨ t = 45 ∨ t = 107 ∨ t = 75.

Definition begins_with_digit (w : str) : Prop := ∃ t w', w = t :: w' ∧ is_digit t.
Definition ends_with_digit (w : str) : Prop := ∃ w' t, w = w' ++ [t] ∧ is_digit t.

(** ** The address value *)

(** White-space runs written as one space each; [in_run] tells that the
    character before was white space. *)
Fixpoint squeeze (in_run : bool) (s : str) : str :=
  match s with
  | [] => []
  | t :: s' =>
      if isspace t
      then (if in_run then squeeze true s' else 32 :: squeeze true s')
      else t :: squeeze false s'
  end.

(** No two white-space characters in a row. *)
Definition single_spaced (w : str) : Prop :=
  ∀ a t1 t2 b, w = a ++ t1 :: t2 :: b → isspace t1 = true → isspace t2 = false.

(** No white space at either end. *)
Definition trimmed (w : str) : Prop :=
  (∀ t w', w = t :: w' → isspace t = false) ∧
  (∀ w' t, w = w' ++ [t] → isspace t = false).

(** ** The entry point on a message object

    [extract_attributes_from_email] reads a message of the [email] package.
    A message is modelled by what the function reads of it: two headers, the
    content type, the charset and the decoded payload of each part, and the
    tree of the parts.  The decoders of the standard library it calls
    ([decode_header], [bytes.decode], [HTMLParser.feed]) are variables: each
    may return or raise. *)

Abbreviation bytes := (list Byte.byte).

(** What the function reads of one message object. *)
Record Part : Type := {
  Subject : option str;                  (* msg.get("Subject") *)
  Content_Disposition : option str;      (* part.get("Content-Disposition") *)
  get_content_type : str;                (* part.get_content_type() *)
  get_content_charset : option str;      (* part.get_content_charset() *)
  get_payload : outcome (option bytes);  (* part.get_payload(decode=True) *)
}.

(** A message holds its own fields and, when it is multipart, its
    subparts. *)
#[warnings="-register-all"]
Inductive Message : Type :=
| Single (part : Part)
| Multipart (part : Part) (subparts : list Message).

Definition fields (msg : Message) : Part :=
  match msg with
  | Single part | Multipart part _ => part
  end.

Definition is_multipart (msg : Message) : bool :=
  match msg with
  | Single _ => false
  | Multipart _ _ => true
  end.

(** [msg.walk()]: the message itself, then the parts of its subparts, depth
    first. *)
Fixpoint walk (msg : Message) : list Part :=
  match msg with
  | Single part => [part]
  | Multipart part subparts =>
      part :: (fix walk_all (ms : list Message) : list Part :=
                 match ms with
                 | [] => []
                 | m :: ms' => walk m ++ walk_all ms'
                 end) subparts
  end.

(** [sep.join(parts)] *)
Fixpoint str_join (sep : str) (parts : list str) : str :=
  match parts with
  | [] => []
  | [p] => p
  | p :: more => p ++ sep ++ str_join sep more
  end.

(** [needle in s] on strings. *)
Fixpoint starts_with (needle s : str) : bool :=
  match needle, s with
  | [], _ => true
  | a :: needle', b :: s' => (a =? b) && starts_with needle' s'
  | _ :: _, [] => false
  end.

Fixpoint str_in (needle s : str) : bool :=
  starts_with needle s ||
  match s with
  | [] => false
  | _ :: s' => str_in needle s'
  end.

(** [v or d] for a string or [None]. *)
Definition str_or (v : option str) (d : str) : str :=
  match v with
  | Some (t :: s) => t :: s
  | _ => d
  end.

(** A fragment of a decoded header: bytes or text. *)
Inductive fragment : Type :=
| FBytes (b : bytes)
| FStr (s : str).

Section Email.
(** [email.header.decode_header] *)
Variable decode_header : str → outcome (list (fragment * option str)).
(** [b.decode(charset, errors="ignore")] *)
Variable decode : bytes → str → outcome str.
(** The data that [HTMLParser.feed] hands to [handle_data], in order. *)
Variable feed : str → outcome (list str).

(** Strip HTML tags and decode entities, returning only visible text:
    the parser collects the data in [_parts], [get_text] joins them. *)
Definition _strip_html (html : str) : outcome str :=
  _parts ← feed html;
  mret (str_join [LF] _parts).

(** The loop over the decoded fragments of the subject. *)
Fixpoint subject_loop (decoded_fragments : list (fragment * option str))
    (subject_parts : list str) : outcome (list str) :=
  match decoded_fragments with
  | [] => mret subject_parts
  | (fragment, encoding) :: more =>
      match fragment with
      | FBytes b =>
          s ← decode b (str_or encoding (py "utf-8"));
          subject_loop more (subject_parts ++ [s])
      | FStr s => subject_loop more (subject_parts ++ [s])
      end
  end.

(** Decode subject *)
Definition decode_subject (msg : Message) : outcome str :=
  let subject_header := default [] (Subject (fields msg)) in
  decoded_fragments ← decode_header subject_header;
  subject_parts ← subject_loop decoded_fragments [];
  mret (concat subject_parts).

(** One turn of the loop over [msg.walk()], on the two lists
    [(plain_parts, html_parts)]. *)
Definition walk_step (lists : list str * list str) (part : Part) : list str * list str :=
  let content_type := get_content_type part in
  let content_disposition := default [] (Content_Disposition part) in
  if str_in (py "attachment") content_disposition then lists
  else
    (* try: ... except Exception: pass *)
    match
      payload ← get_payload part;
      match payload with
      | Some (b0 :: b) =>
          let charset := str_or (get_content_charset part) (py "utf-8") in
          text ← decode (b0 :: b) charset;
          if bool_decide (content_type = py "text/plain")
          then mret (lists.1 ++ [text], lists.2)
          else if bool_decide (content_type = py "text/html")
          then mret (lists.1, lists.2 ++ [text])
          else mret lists
      | _ => mret lists
      end
    with
    | Returns lists' => lists'
    | Raises _ => lists
    end.

(** The multipart branch. *)
Definition multipart_body (msg : Message) : outcome str :=
  let '(plain_parts, html_parts) := foldl walk_step ([], []) (walk msg) in
  match plain_parts, html_parts with
  | _ :: _, _ => mret (str_join [32] plain_parts)
  | [], _ :: _ => _strip_html (str_join [32] html_parts)
  | [], [] => mret []
  end.

(** The branch of a message that is not multipart, under its own
    [try]/[except Exception: pass]. *)
Definition single_body (msg : Message) : str :=
  match
    payload ← get_payload (fields msg);
    match payload with
    | Some (b0 :: b) =>
        let charset := str_or (get_content_charset (fields msg)) (py "utf-8") in
        raw ← decode (b0 :: b) charset;
        if bool_decide (get_content_type (fields msg) = py "text/html")
        then _strip_html raw
        else mret raw
    | _ => mret []
    end
  with
  | Returns body => body
  | Raises _ => []
  end.

(** Extract body: [body] is what the branch gave, or [""] when it raised, the
    exception being logged. *)
Definition extract_body (msg : Message) (log : Log) : str * Log :=
  if is_multipart msg
  then match multipart_body msg with
       | Returns body => (body, log)
       | Raises err => ([], log ++ [err])
       end
  else (single_body msg, log).

(** Extract attributes directly from an email message object. *)
Definition extract_attributes_from_email (msg : Message) (log : Log)
    : outcome AttributeMap * Log :=
  match decode_subject msg with
  | Raises e => (Raises e, log)
  | Returns subject =>
      let '(body, log') := extract_body msg log in
      extract_attributes_from_email_body subject body log'
  end.

(** The text a part gives to the body of a multipart message: none when it
    is an attachment, has no payload, or cannot be read. *)
Definition part_text (part : Part) : option str :=
  if str_in (py "attachment") (default [] (Content_Disposition part)) then None
  else match get_payload part with
       | Returns (Some (b0 :: b)) =>
           match decode (b0 :: b) (str_or (get_content_charset part) (py "utf-8")) with
           | Returns text => Some text
           | Raises _ => None
           end
       | _ => None
       end.

(** The texts of the parts of one content type, in the order of the walk. *)
Definition texts_of (content_type : str) (msg : Message) : list str :=
  omap (fun part => if bool_decide (get_content_type part = content_type)
                    then part_text part else None)
       (walk msg).
End Email.

(** A message for the examples: a [multipart/mixed] container, a text part
    and a text attachment, read with decoders that take every byte for the
    character of its code and find no markup. *)
Definition example_decode_header (header : str) : outcome (list (fragment * option str)) :=
  Returns [(FStr header, None)].
Definition example_decode (b : bytes) (charset : str) : outcome str :=
  Returns ((fun c => Byte.to_N c) <$> b).
Definition example_feed (html : str) : outcome (list str) := Returns [html].

Definition example_top : Part :=
  {| Subject := Some (py "Boleta folio 123456");
     Content_Disposition := None;
     get_content_type := py "multipart/mixed";
     get_content_charset := None;
     get_payload := Returns None |}.

Definition example_text : Part :=
  {| Subject := None;
     Content_Disposition := None;
     get_content_type := py "text/plain";
     get_content_charset := Some (py "utf-8");
     get_payload := Returns (Some (list_byte_of_string "Total a pagar: $ 12.500")) |}.

Definition example_attachment : Part :=
  {| Subject := None;
     Content_Disposition := Some (py "attachment; filename=notas.txt");
     get_content_type := py "text/plain";
     get_content_charset := None;
     get_payload := Returns (Some (list_byte_of_string "Total a pagar: $ 99.999")) |}.

(** [n] equals signs: a filler without white space, digits or labels, for
    the examples that measure a window. *)
Definition equals_signs (n : nat) : str := repeat (code "=") n.
(** ** The pattern tables are those of the source

    Each pattern of the module, as written in the source, reads as its
    abstract syntax tree above. *)

Lemma DATE_PATTERNS_source :
  re_parse <$> [ "([0-9]{1,2}[/-][0-9]{1,2}[/-][0-9]{2,4})";
                 "([0-9]{1,2}\s+de\s+[a-zA-Z]+\s+de\s+[0-9]{4})";
                 "([A-Za-z]+\s+[0-9]{1,2},?\s+[0-9]{4})" ]
  = Some <$> DATE_PATTERNS.
Proof. vm_compute. reflexivity. Qed.

Lemma _TOTAL_LABELS_source :
  re_parse ("(?:total\s+a\s+pagar|monto\s+total|total\s+factura|importe\s+total"
            +:+ "|total\s+cuenta|valor\s+a\s+pagar|total)[:\s]+")
  = Some (p_re _TOTAL_LABELS).
Proof. vm_compute. reflexivity. Qed.

Lemma _CUSTOMER_LABELS_source :
  re_parse ("(?:n[úu]mero\s+de\s+(?:cuenta|cliente)|n[°º]\s*(?:cuenta|cliente)"
            +:+ "|cuenta\s+n[°º]?|cliente\s+n[°º]?|customer\s+(?:number|no\.?)|account\s+(?:number|no\.?))"
            +:+ "[:\s]+")
  = Some (p_re _CUSTOMER_LABELS).
Proof. vm_compute. reflexivity. Qed.

Lemma _ADDRESS_LABELS_source :
  re_parse "(?:direcci[oó]n(?:\s+de\s+suministro)?|domicilio|address)[:\s]+"
  = Some (p_re _ADDRESS_LABELS).
Proof. vm_compute. reflexivity. Qed.

Lemma _AMOUNT_RE_source :
  re_parse ("\$\s*([0-9]{1,3}(?:[.,][0-9]{3})*(?:[.,][0-9]{1,2})?)"
            +:+ "|([0-9]{1,3}(?:[.,][0-9]{3})*(?:[.,][0-9]{1,2})?)\s*(?:CLP|USD|EUR|pesos?)")
  = Some (p_re _AMOUNT_RE).
Proof. vm_compute. reflexivity. Qed.

Lemma customer_digits_source :
  re_parse "([0-9][0-9.\-]{0,19})" = Some (p_re customer_digits).
Proof. vm_compute. reflexivity. Qed.

Lemma address_line_source :
  re_parse "([^\n\r]{5,120})" = Some (p_re address_line).
Proof. vm_compute. reflexivity. Qed.

Lemma spaces_source : re_parse "\s+" = Some (p_re spaces).
Proof. vm_compute. reflexivity. Qed.

Lemma folio_patterns_source :
  re_parse <$> [ "folio[:\s]*([0-9]{6,})";
                 "n[úu]mero[:\s]*([0-9]{6,})";
                 "boleta[:\s]*([0-9]{6,})";
                 "factura[:\s]*([0-9]{6,})" ]
  = Some <$> folio_patterns.
Proof. vm_compute. reflexivity. Qed.

Lemma rut_pattern_source :
  re_parse "([0-9]{1,2}\.[0-9]{3}\.[0-9]{3}-[0-9kK])" = Some (p_re rut_pattern).
Proof. vm_compute. reflexivity. Qed.

(** ** Properties of the matcher *)

Lemma len_app (u v : str) : len (u ++ v) = len u + len v.
Proof. unfold len. rewrite length_app. lia. Qed.

Lemma len_nil : len [] = 0.
Proof. reflexivity. Qed.

Lemma len_cons (t : N) (s : str) : len (t :: s) = N.succ (len s).
Proof. unfold len. simpl. lia. Qed.

Lemma take_len_app (pos : N) (w s' : str) :
  take (N.to_nat (pos + len w - pos)) (w ++ s') = w.
Proof.
  replace (N.to_nat (pos + len w - pos)) with (length w) by (unfold len; lia).
  by rewrite take_app_length.
Qed.

Section Soundness.
Context {R : Type}.
Variable f : flags.
Variable P : str → Prop.

Section Loop.
Variable body : N → str → groups → (N → str → groups → option R) → option R.
Variable L : str → Prop.
Variable always : nat → bool.
Hypothesis body_sound : sound_for P L always body.

Lemma rep_more_sound k fl n pos s c res :
  caps_ok P c → rep_more body k fl n pos s c = Some res →
  ∃ ws s' c',
    s = concat ws ++ s' ∧ Forall L ws ∧
    match n with Some h => (length ws ≤ h)%nat | None => True end ∧
    caps_ok P c' ∧ (∀ i, is_Some (c !! i) → is_Some (c' !! i)) ∧
    k (pos + len (concat ws)) s' c' = Some res.
Proof.
  revert n pos s c. induction fl as [|x fl IH]; intros n pos s c Hc H.
  - exists [], s, c. simpl in *. rewrite N.add_0_r.
    repeat split; auto. destruct n; [simpl; lia|done].
  - assert (Hstop : k pos s c = Some res →
      ∃ ws s' c', s = concat ws ++ s' ∧ Forall L ws ∧
        match n with Some h => (length ws ≤ h)%nat | None => True end ∧
        caps_ok P c' ∧ (∀ i, is_Some (c !! i) → is_Some (c' !! i)) ∧
        k (pos + len (concat ws)) s' c' = Some res).
    { intros Hk. exists [], s, c. simpl. rewrite N.add_0_r.
      repeat split; auto. destruct n; [simpl; lia|done]. }
    simpl in H.
    assert (Hgo : n ≠ Some O →
      match body pos s c (fun p' s' c' =>
              if pos <? p' then rep_more body k fl (pred <$> n) p' s' c' else None)
      with Some x => Some x | None => k pos s c end = Some res →
      ∃ ws s' c', s = concat ws ++ s' ∧ Forall L ws ∧
        match n with Some h => (length ws ≤ h)%nat | None => True end ∧
        caps_ok P c' ∧ (∀ i, is_Some (c !! i) → is_Some (c' !! i)) ∧
        k (pos + len (concat ws)) s' c' = Some res).
    { intros Hn Hm.
      destruct (body pos s c _) as [x0|] eqn:Hb; [|by apply Hstop].
      injection Hm as ->.
      destruct (body_sound _ _ _ _ _ Hc Hb) as (w & s1 & c1 & -> & Hw & Hc1 & Hm1 & _ & Hk).
      destruct (pos <? pos + len w); [|done].
      destruct (IH _ _ _ _ Hc1 Hk) as (ws & s2 & c2 & -> & Hws & Hb2 & Hc2 & Hm2 & Hk2).
      exists (w :: ws), s2, c2. simpl. rewrite len_app, N.add_assoc, <- app_assoc.
      repeat split; auto.
      destruct n as [[|h]|]; simpl in *; [done|lia|done]. }
    destruct n as [[|h]|]; [by apply Hstop| |]; by apply Hgo.
Qed.

Lemma rep_must_sound k m n pos s c res :
  caps_ok P c → rep_must body k m n pos s c = Some res →
  ∃ ws s' c',
    s = concat ws ++ s' ∧ Forall L ws ∧ (m ≤ length ws)%nat ∧
    match n with Some h => (length ws ≤ m + h)%nat | None => True end ∧
    caps_ok P c' ∧ (∀ i, is_Some (c !! i) → is_Some (c' !! i)) ∧
    (∀ i, m ≠ O → always i = true → is_Some (c' !! i)) ∧
    k (pos + len (concat ws)) s' c' = Some res.
Proof.
  revert pos s c. induction m as [|m IH]; intros pos s c Hc H; simpl in H.
  - destruct (rep_more_sound _ _ _ _ _ _ _ Hc H)
      as (ws & s' & c' & -> & Hws & Hb & Hc' & Hm & Hk).
    exists ws, s', c'. repeat split; auto; [lia|done].
  - destruct (body_sound _ _ _ _ _ Hc H) as (w & s1 & c1 & -> & Hw & Hc1 & Hm1 & Ha1 & Hk).
    destruct (IH _ _ _ Hc1 Hk) as (ws & s2 & c2 & -> & Hws & Hlo & Hb2 & Hc2 & Hm2 & _ & Hk2).
    exists (w :: ws), s2, c2. simpl. rewrite len_app, N.add_assoc, <- app_assoc.
    repeat split; auto; [lia|destruct n; [lia|done]].
Qed.
End Loop.

Lemma mtch_sound r : grp_ok f P r → sound_for (R:=R) P (lang f r) (sets r) (mtch f r).
Proof.
  induction r as [|neg items|r1 IH1 r2 IH2|r1 IH1 r2 IH2|r1 IH1 lo hi|i r1 IH1];
    intros Hg pos s c k res Hc H; simpl in H.
  - exists [], s, c. rewrite len_nil, N.add_0_r. by repeat split.
  - destruct s as [|t s']; [done|].
    destruct (chr_in f neg items t) eqn:Ht; [|done].
    exists [t], s', c. rewrite len_cons, len_nil.
    replace (pos + N.succ 0) with (N.succ pos) by lia.
    repeat split; simpl; eauto. done.
  - destruct Hg as [Hg1 Hg2].
    destruct (IH1 Hg1 _ _ _ _ _ Hc H) as (u & s1 & c1 & -> & Hu & Hc1 & Hm1 & Ha1 & Hk1).
    destruct (IH2 Hg2 _ _ _ _ _ Hc1 Hk1) as (v & s2 & c2 & -> & Hv & Hc2 & Hm2 & Ha2 & Hk2).
    exists (u ++ v), s2, c2. rewrite len_app, N.add_assoc, <- app_assoc.
    repeat split; auto.
    + simpl. eauto.
    + simpl. intros i [Hi|Hi]%orb_prop; auto.
  - destruct Hg as [Hg1 Hg2].
    destruct (mtch f r1 pos s c k) as [x|] eqn:H1.
    + injection H as ->.
      destruct (IH1 Hg1 _ _ _ _ _ Hc H1) as (u & s1 & c1 & -> & Hu & Hc1 & Hm1 & Ha1 & Hk1).
      exists u, s1, c1. repeat split; simpl; auto.
      intros i [Hi _]%andb_prop; auto.
    + destruct (IH2 Hg2 _ _ _ _ _ Hc H) as (u & s1 & c1 & -> & Hu & Hc1 & Hm1 & Ha1 & Hk1).
      exists u, s1, c1. repeat split; simpl; auto.
      intros i [_ Hi]%andb_prop; auto.
  - simpl in Hg.
    destruct (rep_must_sound _ _ _ (IH1 Hg) _ _ _ _ _ _ _ Hc H)
      as (ws & s' & c' & -> & Hws & Hlo & Hhi & Hc' & Hm & Ha & Hk).
    exists (concat ws), s', c'. repeat split; auto.
    + simpl. exists ws. repeat split; auto.
      destruct hi as [h|]; simpl in *; [lia|done].
    + simpl. intros i Hi. destruct lo; [done|]. by apply Ha.
  - destruct Hg as [Hg1 Hg2].
    destruct (IH1 Hg2 _ _ _ _ _ Hc H) as (u & s1 & c1 & -> & Hu & Hc1 & Hm1 & Ha1 & Hk1).
    rewrite take_len_app in Hk1.
    exists u, s1, (<[i := u]> c1). repeat split; auto.
    + intros j v. rewrite lookup_insert. case_decide; [|by apply Hc1].
      intros [= <-]. by apply Hg1.
    + intros j Hj. rewrite lookup_insert. case_decide; [done|auto].
    + simpl. intros j Hj. rewrite lookup_insert. case_decide; [done|].
      apply Ha1. apply orb_prop in Hj as [Hj%Nat.eqb_eq|Hj]; [congruence|done].
Qed.
End Soundness.

(** ** First and last characters of the words of a pattern *)

Lemma lang_nil_nullable f r : lang f r [] → nullable r = true.
Proof.
  induction r as [|neg items|r1 IH1 r2 IH2|r1 IH1 r2 IH2|r1 IH1 lo hi|i r1 IH1]; simpl.
  - done.
  - by intros (t & ? & _).
  - intros (u & v & Huv & Hu & Hv). symmetry in Huv.
    apply app_eq_nil in Huv as [-> ->]. by rewrite IH1, IH2.
  - intros [H|H]; [rewrite IH1|rewrite IH2]; auto using orb_true_r.
  - intros (ws & Hw & Hws & Hlo & _). destruct lo; [done|].
    destruct ws as [|w ws]; [simpl in Hlo; lia|].
    simpl in Hw. symmetry in Hw. apply app_eq_nil in Hw as [-> _].
    apply IH1. by inversion Hws.
  - done.
Qed.

Lemma concat_cons_inv {A} (ws : list (list A)) (t : A) (w' : list A) (Q : list A → Prop) :
  concat ws = t :: w' → Forall Q ws → ∃ u, Q (t :: u).
Proof.
  induction ws as [|w ws IH]; [done|]. simpl. intros H Hq.
  inversion Hq as [|? ? Hw Hws]; subst. destruct w as [|t0 w0].
  - by apply IH.
  - injection H as -> _. eauto.
Qed.

Lemma concat_snoc_inv {A} (ws : list (list A)) (t : A) (w' : list A) (Q : list A → Prop) :
  concat ws = w' ++ [t] → Forall Q ws → ∃ u, Q (u ++ [t]).
Proof.
  revert w'. induction ws as [|w ws IH]; intros w'.
  - simpl. by destruct w'.
  - simpl. intros H Hq. inversion Hq as [|? ? Hw Hws]; subst.
    destruct (concat ws) as [|x l] eqn:Hc using rev_ind.
    + rewrite app_nil_r in H. subst. eauto.
    + clear IHl. rewrite app_assoc in H. apply app_inj_tail in H as [_ ->].
      by apply (IH l).
Qed.

Lemma firsts_sound f r t w' :
  lang f r (t :: w') → ∃ cs, cs ∈ firsts r ∧ chr_in f cs.1 cs.2 t = true.
Proof.
  revert w'.
  induction r as [|neg items|r1 IH1 r2 IH2|r1 IH1 r2 IH2|r1 IH1 lo hi|i r1 IH1];
    intros w'; simpl.
  - done.
  - intros (t0 & [= -> ->] & Ht). exists (neg, items). split; [set_solver|done].
  - intros (u & v & Huv & Hu & Hv). destruct u as [|t0 u0].
    + simpl in Huv. subst v. apply lang_nil_nullable in Hu as ->.
      destruct (IH2 _ Hv) as (cs & Hin & Hcs). exists cs. split; [set_solver|done].
    + injection Huv as <- _. destruct (IH1 _ Hu) as (cs & Hin & Hcs).
      exists cs. split; [set_solver|done].
  - intros [H|H]; [destruct (IH1 _ H) as (cs & ? & ?)|destruct (IH2 _ H) as (cs & ? & ?)];
      exists cs; (split; [set_solver|done]).
  - intros (ws & Hw & Hws & _). symmetry in Hw.
    destruct (concat_cons_inv _ _ _ _ Hw Hws) as (u & Hu). eauto.
  - eauto.
Qed.

Lemma lasts_sound f r t w' :
  lang f r (w' ++ [t]) → ∃ cs, cs ∈ lasts r ∧ chr_in f cs.1 cs.2 t = true.
Proof.
  revert w'.
  induction r as [|neg items|r1 IH1 r2 IH2|r1 IH1 r2 IH2|r1 IH1 lo hi|i r1 IH1];
    intros w'; simpl.
  - by destruct w'.
  - intros (t0 & Ht0 & Ht). destruct w' as [|? [|]]; try done.
    injection Ht0 as ->. exists (neg, items). split; [set_solver|done].
  - intros (u & v & Huv & Hu & Hv). destruct v as [|x v0] using rev_ind.
    + rewrite app_nil_r in Huv. subst u. apply lang_nil_nullable in Hv as ->.
      destruct (IH1 _ Hu) as (cs & Hin & Hcs). exists cs. split; [set_solver|done].
    + clear IHv0. rewrite app_assoc in Huv. apply app_inj_tail in Huv as [_ ->].
      destruct (IH2 _ Hv) as (cs & Hin & Hcs). exists cs. split; [set_solver|done].
  - intros [H|H]; [destruct (IH1 _ H) as (cs & ? & ?)|destruct (IH2 _ H) as (cs & ? & ?)];
      exists cs; (split; [set_solver|done]).
  - intros (ws & Hw & Hws & _). symmetry in Hw.
    destruct (concat_snoc_inv _ _ _ _ Hw Hws) as (u & Hu). eauto.
  - eauto.
Qed.

Lemma isspace_spec t : isspace t = true ↔ t ∈ unicode_spaces.
Proof.
  unfold isspace. rewrite existsb_exists. split.
  - intros (x & Hx%list_elem_of_In & ->%N.eqb_eq). done.
  - intros H. exists t. split; [by apply list_elem_of_In|apply N.eqb_refl].
Qed.

Lemma set_nonspace_sound f cs t :
  set_nonspace f cs = true → chr_in f cs.1 cs.2 t = true → isspace t = false.
Proof.
  unfold set_nonspace. rewrite forallb_forall. intros Hall Ht.
  destruct (isspace t) eqn:Hs; [|done].
  apply isspace_spec, list_elem_of_In, Hall in Hs. by rewrite Ht in Hs.
Qed.

Lemma lstrip_solid t w : isspace t = false → lstrip (t :: w) = t :: w.
Proof. intros H. simpl. by rewrite H. Qed.

Lemma strip_solid t w t' w' :
  t :: w = w' ++ [t'] → isspace t = false → isspace t' = false →
  strip (t :: w) = t :: w.
Proof.
  intros Hw Ht Ht'. unfold strip, rstrip. rewrite lstrip_solid by done.
  rewrite Hw, rev_app_distr. simpl. rewrite Ht'.
  change (t' :: rev w') with (rev [t'] ++ rev w').
  by rewrite <- rev_app_distr, rev_involutive.
Qed.

Lemma solid_sound f r w : solid f r = true → lang f r w → solid_word w.
Proof.
  unfold solid. intros [[Hn Hf]%andb_prop Hl]%andb_prop Hw.
  rewrite forallb_forall in Hf, Hl.
  destruct w as [|t w0].
  { apply lang_nil_nullable in Hw. by rewrite Hw in Hn. }
  split; [done|].
  destruct (firsts_sound _ _ _ _ Hw) as (cs & Hin & Hcs).
  assert (Hsnoc : ∃ w' t', t :: w0 = w' ++ [t']).
  { destruct (t :: w0) as [|x l _] eqn:E using rev_ind; [done|]. eauto. }
  destruct Hsnoc as (w' & t' & E). rewrite E in Hw.
  destruct (lasts_sound _ _ _ _ Hw) as (cs' & Hin' & Hcs').
  apply (strip_solid _ _ _ _ E).
  - eapply set_nonspace_sound; [|done]. by apply Hf, list_elem_of_In.
  - eapply set_nonspace_sound; [|done]. by apply Hl, list_elem_of_In.
Qed.

Lemma grp_solid_ok f r : grp_solid f r = true → grp_ok f solid_word r.
Proof.
  induction r as [|neg items|r1 IH1 r2 IH2|r1 IH1 r2 IH2|r1 IH1 lo hi|i r1 IH1]; simpl;
    try done.
  - intros [??]%andb_prop. auto.
  - intros [??]%andb_prop. auto.
  - intros [Hs ?]%andb_prop. split; [|auto]. intros w. by apply solid_sound.
Qed.

(** ** Properties of [search] and [finditer] *)

Lemma match_at_inv P p pos s m :
  grp_ok (p_flags p) P (p_re p) → match_at p pos s = Some m →
  ∃ w s', s = w ++ s' ∧ lang (p_flags p) (p_re p) w ∧
          m_start m = pos ∧ m_end m = pos + len w ∧
          caps_ok P (m_groups m) ∧
          ∀ i, sets (p_re p) i = true → is_Some (group m i).
Proof.
  intros Hg H. unfold match_at in H.
  assert (Hc : caps_ok P (∅ : groups)) by (intros i v; by rewrite lookup_empty).
  destruct (mtch_sound _ P _ Hg _ _ _ _ _ Hc H)
    as (w & s' & c' & -> & Hw & Hc' & _ & Ha & [= <-]).
  exists w, s'. by repeat split.
Qed.

Lemma search_from_inv p pos s m :
  search_from p pos s = Some m →
  ∃ pre s1, s = pre ++ s1 ∧ match_at p (pos + len pre) s1 = Some m ∧
    ∀ p1 p2, pre = p1 ++ p2 → p2 ≠ [] → match_at p (pos + len p1) (p2 ++ s1) = None.
Proof.
  revert pos. induction s as [|t s IH]; intros pos; simpl.
  - destruct (match_at p pos []) eqn:E; [|done]. intros [= ->].
    exists [], []. rewrite len_nil, N.add_0_r. split; [done|]. split; [done|].
    intros p1 p2 Hp. symmetry in Hp. by apply app_eq_nil in Hp as [_ ->].
  - destruct (match_at p pos (t :: s)) eqn:E.
    + intros [= ->]. exists [], (t :: s). rewrite len_nil, N.add_0_r.
      split; [done|]. split; [done|].
      intros p1 p2 Hp. symmetry in Hp. by apply app_eq_nil in Hp as [_ ->].
    + intros (pre & s1 & -> & H & Hl)%IH. exists (t :: pre), s1.
      rewrite len_cons. split; [done|].
      split; [by replace (pos + N.succ (len pre)) with (N.succ pos + len pre) by lia|].
      intros [|t1 p1] p2 Hp Hne; simpl in Hp.
      * subst p2. by rewrite len_nil, N.add_0_r.
      * injection Hp as <- ->. rewrite len_cons.
        replace (pos + N.succ (len p1)) with (N.succ pos + len p1) by lia. by apply Hl.
Qed.

Lemma search_matched p pos s m : search_from p pos s = Some m → matched p m.
Proof. intros (pre & s1 & _ & H & _)%search_from_inv. by exists (pos + len pre), s1. Qed.

Lemma re_search_matched p text m : re_search p text = Some m → matched p m.
Proof. apply search_matched. Qed.

Lemma finditer_from_matched p fuel pos s :
  Forall (matched p) (finditer_from fuel p pos s).
Proof.
  revert pos s. induction fuel as [|fuel IH]; intros pos s; simpl; [done|].
  destruct (search_from p pos s) as [m|] eqn:E; [|done].
  constructor; [by eapply search_matched|].
  destruct (m_start m <? m_end m); [done|]. by destruct (drop _ s).
Qed.

Lemma re_finditer_matched p text : Forall (matched p) (re_finditer p text).
Proof. apply finditer_from_matched. Qed.

(** A match of a pattern whose groups are solid: every group that took part
    holds a solid word, and the groups that always take part are there. *)
Lemma matched_solid p m :
  grp_solid (p_flags p) (p_re p) = true → matched p m →
  (∀ i v, group m i = Some v → solid_word v) ∧
  (∀ i, sets (p_re p) i = true → ∃ v, group m i = Some v ∧ solid_word v).
Proof.
  intros Hg (pos & s & H).
  destruct (match_at_inv solid_word _ _ _ _ (grp_solid_ok _ _ Hg) H)
    as (w & s' & _ & _ & _ & _ & Hc & Ha).
  split; [exact Hc|]. intros i [v Hv]%Ha. exists v. split; [done|]. by eapply Hc.
Qed.

Lemma group_val_solid p m i :
  grp_solid (p_flags p) (p_re p) = true → sets (p_re p) i = true → matched p m →
  ∃ v, group_val m i = PyStr v ∧ solid_word v.
Proof.
  intros Hg Hs Hm. destruct (matched_solid _ _ Hg Hm) as [_ H].
  destruct (H _ Hs) as (v & Hv & Hsv). exists v. unfold group_val. by rewrite Hv.
Qed.

Lemma grp_ok_True f r : grp_ok f (fun _ => True) r.
Proof. induction r; simpl; auto. Qed.

Lemma matched_sets p m i :
  sets (p_re p) i = true → matched p m → is_Some (group m i).
Proof.
  intros Hs (pos & s & H).
  destruct (match_at_inv _ _ _ _ _ (grp_ok_True _ _) H) as (w & s' & _ & _ & _ & _ & _ & Ha).
  by apply Ha.
Qed.

(** A pattern that cannot match the empty word has no empty match.  Such
    are the patterns the module hands to [finditer] and [sub], so the scan
    always resumes at the end of the last match. *)
Lemma match_at_nonempty p pos s m :
  nullable (p_re p) = false → match_at p pos s = Some m → m_start m < m_end m.
Proof.
  intros Hn H.
  destruct (match_at_inv _ _ _ _ _ (grp_ok_True _ _) H) as (w & s' & _ & Hw & -> & -> & _).
  destruct w as [|t w].
  - apply lang_nil_nullable in Hw. congruence.
  - rewrite len_cons. lia.
Qed.

Lemma finditer_patterns_nonempty :
  Forall (fun r => nullable r = false)
    (p_re _TOTAL_LABELS :: p_re _CUSTOMER_LABELS :: p_re _ADDRESS_LABELS
       :: p_re spaces :: DATE_PATTERNS).
Proof. repeat constructor. Qed.

(** ** What the groups of a match hold *)

Lemma grp_ok_bodies f r0 r :
  (∀ g, g ∈ group_bodies r → g ∈ group_bodies r0) →
  grp_ok f (fun v => ∃ g, g ∈ group_bodies r0 ∧ lang f g v) r.
Proof.
  induction r as [|neg items|r1 IH1 r2 IH2|r1 IH1 r2 IH2|r1 IH1 lo hi|i r1 IH1]; simpl;
    intros Hsub; try done.
  - split; [apply IH1|apply IH2]; intros g Hg; apply Hsub; set_solver.
  - split; [apply IH1|apply IH2]; intros g Hg; apply Hsub; set_solver.
  - auto.
  - split.
    + intros w Hw. exists r1. split; [apply Hsub; set_solver|done].
    + apply IH1. intros g Hg. apply Hsub. set_solver.
Qed.

Lemma matched_group_body p m i v :
  matched p m → group m i = Some v →
  ∃ g, g ∈ group_bodies (p_re p) ∧ lang (p_flags p) g v.
Proof.
  intros (pos & s & H) Hv.
  destruct (match_at_inv _ _ _ _ _ (grp_ok_bodies _ (p_re p) (p_re p) (fun _ Hg => Hg)) H)
    as (w & s' & _ & _ & _ & _ & Hc & _).
  by eapply Hc.
Qed.

Lemma range_ci_bounds lo n u :
  (∀ c, lo ≤ c < lo + N.of_nat n → unicode_tolower c = c ∧ ignorecase_fixes c = []) →
  range_ci lo n u = true → lo ≤ u < lo + N.of_nat n.
Proof.
  revert lo. induction n as [|n IH]; intros lo Hc; cbn [range_ci]; [done|].
  intros [H|H]%orb_prop.
  - unfold lit_ci in H. destruct (Hc lo) as [E1 E2]; [lia|]. rewrite E1, E2 in H.
    cbn [existsb] in H. rewrite orb_false_r in H. apply N.eqb_eq in H. lia.
  - apply IH in H; [lia|]. intros c Hlo. apply Hc. lia.
Qed.

(** Boolean tests on code points in the hypotheses, as propositions. *)
Ltac bool_hyps :=
  repeat match goal with
         | H : _ && _ = true |- _ => apply andb_prop in H as [??]
         | H : _ && _ = false |- _ => apply andb_false_iff in H as [?|?]
         | H : negb _ = true |- _ => apply negb_true_iff in H
         | H : negb _ = false |- _ => apply negb_false_iff in H
         | H : (_ <=? _) = true |- _ => apply N.leb_le in H
         | H : (_ <=? _) = false |- _ => apply N.leb_gt in H
         | H : (_ =? _) = true |- _ => apply N.eqb_eq in H
         | H : (_ =? _) = false |- _ => apply N.eqb_neq in H
         end.

Ltac case_ifs :=
  repeat match goal with
         | |- context [if ?b then _ else _] => destruct b eqn:?
         end.

Lemma tolower_digit t : 48 ≤ unicode_tolower t ≤ 57 → unicode_tolower t = t.
Proof. unfold unicode_tolower. case_ifs; bool_hyps; try done; lia. Qed.

Lemma digit_is_digit f t : chr_in f false [CRange 48 57] t = true → is_digit t.
Proof.
  unfold chr_in, is_digit. simpl. rewrite orb_false_r. destruct f; simpl.
  - intros [?%N.leb_le ?%N.leb_le]%andb_prop. lia.
  - intros H. apply (range_ci_bounds 48 10) in H.
    + rewrite <- (tolower_digit t) by lia. lia.
    + intros c Hc. unfold unicode_tolower, ignorecase_fixes.
      case_ifs; bool_hyps; try done; lia.
Qed.

Lemma digits_word f lo hi v :
  lang f (Rep digit lo hi) v → (lo ≤ length v)%nat ∧ Forall is_digit v.
Proof.
  simpl. intros (ws & -> & Hws & Hlo & _).
  assert (H : length (concat ws) = length ws ∧ Forall is_digit (concat ws)).
  { clear Hlo. induction Hws as [|w ws (t & -> & Ht) _ [IH1 IH2]]; [done|].
    simpl. split; [by rewrite IH1|]. constructor; [|done].
    by eapply digit_is_digit. }
  destruct H as [-> ?]. done.
Qed.

(** ** The date slots *)

Lemma lookup_fill key o dates key' :
  fill key o dates !! key' =
    if decide (key = key')
    then match dates !! key with Some v => Some v | None => date_value <$> o end
    else dates !! key'.
Proof.
  unfold fill. case_decide as Hk.
  - subst key'. destruct (dates !! key) eqn:E; [done|].
    destruct o; simpl; [by rewrite lookup_insert_eq|done].
  - destruct (dates !! key), o; try done. by rewrite lookup_insert_ne.
Qed.

Lemma py_strip_group m :
  is_Some (group m 1) → py_strip (group_val m 1) = Returns (strip (default [] (group m 1))).
Proof. intros [v Hv]. unfold group_val. by rewrite Hv. Qed.

Lemma fill_None key dates : fill key None dates = dates.
Proof. unfold fill. by destruct (dates !! key). Qed.

Lemma dates_matches_2 ms dates : dates_matches 2 ms dates = Returns dates.
Proof. by destruct ms. Qed.

Lemma dates_matches_1 ms dates :
  Forall (fun m => is_Some (group m 1)) ms →
  dates_matches 1 ms dates = Returns (fill "billing_period_end" (ms !! 0%nat) dates).
Proof.
  intros Hms. destruct ms as [|m1 ms]; [by rewrite fill_None|].
  inversion Hms as [|? ? H1 _]; subst. simpl. unfold fill.
  destruct (dates !! "billing_period_end"); [apply dates_matches_2|].
  rewrite py_strip_group by done. simpl. apply dates_matches_2.
Qed.

Lemma dates_matches_fill ms dates :
  Forall (fun m => is_Some (group m 1)) ms →
  dates_matches 0 ms dates
  = Returns (fill "billing_period_end" (ms !! 1%nat)
               (fill "billing_period_start" (ms !! 0%nat) dates)).
Proof.
  intros Hms. destruct ms as [|m0 ms]; [by rewrite !fill_None|].
  inversion Hms as [|? ? H0 Hms']; subst. simpl. unfold fill at 2.
  destruct (dates !! "billing_period_start"); [by apply dates_matches_1|].
  rewrite py_strip_group by done. simpl. by apply dates_matches_1.
Qed.

Lemma table_ok_group r m :
  grp_solid IGNORECASE r = true ∧ sets r 1 = true →
  matched (Pattern r IGNORECASE) m →
  ∃ v, group m 1 = Some v ∧ solid_word v.
Proof.
  intros [Hg Hs] Hm. destruct (matched_solid (Pattern r IGNORECASE) m Hg Hm) as [_ H].
  by apply H.
Qed.

Lemma table_ok_finditer r text :
  grp_solid IGNORECASE r = true ∧ sets r 1 = true →
  Forall (fun m => is_Some (group m 1)) (re_finditer (Pattern r IGNORECASE) text).
Proof.
  intros Hr. eapply Forall_impl; [apply re_finditer_matched|].
  intros m Hm. destruct (table_ok_group _ _ Hr Hm) as (v & Hv & _). by exists v.
Qed.

Lemma DATE_PATTERNS_ok : table_ok DATE_PATTERNS.
Proof. repeat constructor. Qed.

Lemma folio_patterns_ok : table_ok folio_patterns.
Proof. repeat constructor. Qed.

Lemma dates_patterns_lookup patterns text dates :
  table_ok patterns →
  ∃ dates',
    dates_patterns patterns text dates = Returns dates' ∧
    ∀ key,
      dates' !! key =
        match dates !! key with
        | Some v => Some v
        | None =>
            if decide (key = "billing_period_start")
            then date_value <$> occurrence patterns text 0
            else if decide (key = "billing_period_end")
            then date_value <$> occurrence patterns text 1
            else None
        end.
Proof.
  intros Hok. revert dates. induction Hok as [|pat patterns Hpat Hok IH]; intros dates.
  - exists dates. split; [done|]. intros key. destruct (dates !! key); [done|].
    by repeat case_decide.
  - simpl. rewrite dates_matches_fill by by apply table_ok_finditer. simpl.
    destruct (IH (fill "billing_period_end" (re_finditer (Pattern pat IGNORECASE) text !! 1%nat)
                (fill "billing_period_start"
                   (re_finditer (Pattern pat IGNORECASE) text !! 0%nat) dates)))
      as (dates' & -> & Hl).
    exists dates'. split; [done|]. intros key. rewrite Hl, !lookup_fill.
    unfold occurrence. simpl.
    destruct (dates !! key) as [v|] eqn:Hk.
    { repeat case_decide; subst; by rewrite ?Hk. }
    repeat case_decide; subst; try done; rewrite ?Hk.
    + by destruct (re_finditer _ text !! 1%nat).
    + by destruct (re_finditer _ text !! 0%nat).
Qed.

(** ** The extractors do not raise *)

Lemma _extract_dates_returns text : _extract_dates text = Returns (dates_of text).
Proof.
  unfold dates_of, _extract_dates.
  destruct (dates_patterns_lookup DATE_PATTERNS text ∅ DATE_PATTERNS_ok) as (d & -> & _).
  done.
Qed.

Lemma dates_of_lookup text key :
  dates_of text !! key =
    if decide (key = "billing_period_start")
    then date_value <$> occurrence DATE_PATTERNS text 0
    else if decide (key = "billing_period_end")
    then date_value <$> occurrence DATE_PATTERNS text 1
    else None.
Proof.
  unfold dates_of, _extract_dates.
  destruct (dates_patterns_lookup DATE_PATTERNS text ∅ DATE_PATTERNS_ok) as (d & -> & Hl).
  simpl. by rewrite Hl, lookup_empty.
Qed.

Lemma customer_loop_returns text ms :
  Forall (matched _CUSTOMER_LABELS) ms →
  ∃ v, customer_loop text ms = Returns v.
Proof.
  induction 1 as [|m ms _ _ IH]; simpl; [eauto|].
  destruct (re_search customer_digits _) as [num_match|] eqn:E; [|done].
  apply re_search_matched, (matched_sets _ _ 1) in E as [v Hv]; [|done].
  unfold group_val. rewrite Hv. simpl. eauto.
Qed.

Lemma _extract_customer_number_returns text :
  _extract_customer_number text = Returns (customer_of text).
Proof.
  unfold customer_of.
  destruct (customer_loop_returns text _ (re_finditer_matched _CUSTOMER_LABELS text))
    as [v Hv].
  unfold _extract_customer_number. by rewrite Hv.
Qed.

Lemma address_loop_returns text ms : ∃ v, address_loop text ms = Returns v.
Proof.
  induction ms as [|m ms IH]; simpl; [eauto|].
  destruct (re_search address_line _) as [line_match|] eqn:E; [|done].
  apply re_search_matched, (matched_sets _ _ 1) in E as [v Hv]; [|done].
  unfold group_val. rewrite Hv. simpl.
  destruct (strip _); eauto.
Qed.

Lemma _extract_address_returns text :
  _extract_address text = Returns (address_of text).
Proof.
  unfold address_of, _extract_address.
  by destruct (address_loop_returns text (re_finditer _ADDRESS_LABELS text)) as [v ->].
Qed.

(** The result of the aggregator, statement by statement. *)
Lemma extract_attributes_from_email_body_eq subject body log :
  extract_attributes_from_email_body subject body log =
    (Returns
       (store "address" (address_of (combine subject body))
          (store "customer_number" (customer_of (combine subject body))
             (store "total_amount" (_extract_total_amount (combine subject body))
                (update (update ∅ (_extract_from_subject subject))
                   (dates_of (combine subject body)))))),
     log).
Proof.
  unfold extract_attributes_from_email_body, extract_attributes_with, try_block.
  rewrite _extract_dates_returns, _extract_customer_number_returns,
    _extract_address_returns.
  unfold store. simpl. unfold mbind, block_bind, call, attributes_update. simpl.
  destruct (truthy (_extract_total_amount _)), (truthy (customer_of _)),
    (truthy (address_of _)); reflexivity.
Qed.

Lemma extracted_eq subject body :
  extracted subject body =
    store "address" (address_of (combine subject body))
      (store "customer_number" (customer_of (combine subject body))
         (store "total_amount" (_extract_total_amount (combine subject body))
            (update (update ∅ (_extract_from_subject subject))
               (dates_of (combine subject body))))).
Proof. unfold extracted. by rewrite extract_attributes_from_email_body_eq. Qed.

Lemma attributes_of_eq subject body log :
  attributes_of (extract_attributes_from_email_body subject body log)
  = extracted subject body.
Proof. unfold extracted. by rewrite !extract_attributes_from_email_body_eq. Qed.

Lemma lookup_store key v attributes key' :
  store key v attributes !! key' =
    if decide (key = key')
    then (if truthy v then Some v else attributes !! key)
    else attributes !! key'.
Proof.
  unfold store. case_decide as Hk.
  - subst. destruct (truthy v); [by rewrite lookup_insert_eq|done].
  - destruct (truthy v); [by rewrite lookup_insert_ne|done].
Qed.

Lemma lookup_update d e key :
  update d e !! key = match e !! key with Some v => Some v | None => d !! key end.
Proof.
  unfold update. rewrite lookup_union. by destruct (e !! key), (d !! key).
Qed.

Lemma truthy_found v : truthy v = true → found v.
Proof. destruct v as [|[|t s]]; try done. intros _. by exists (t :: s). Qed.

(** *** The values of the subject extractor *)

Lemma folio_loop_lookup patterns subject attrs key :
  folio_loop patterns subject attrs !! key =
    if decide (key = "folio")
    then match list_find (fun pat => is_Some (re_search (Pattern pat IGNORECASE) subject))
                 patterns with
         | Some (_, pat) =>
             (fun m => group_val m 1) <$> re_search (Pattern pat IGNORECASE) subject
         | None => attrs !! "folio"
         end
    else attrs !! key.
Proof.
  induction patterns as [|pat patterns IH]; simpl.
  - by case_decide; subst.
  - destruct (re_search (Pattern pat IGNORECASE) subject) as [m|] eqn:E.
    + destruct (decide (is_Some (Some m))) as [_|Hn]; [|by destruct Hn; eexists].
      simpl. rewrite E. simpl.
      case_decide; subst; [by rewrite lookup_insert_eq|by rewrite lookup_insert_ne].
    + destruct (decide (is_Some None)) as [[??]|_]; [done|]. rewrite IH.
      case_decide; [|done]. by destruct (list_find _ patterns) as [[??]|].
Qed.

Lemma _extract_from_subject_lookup subject key :
  _extract_from_subject subject !! key =
    if decide (key = "rut_from_subject")
    then (fun m => group_val m 1) <$> re_search rut_pattern subject
    else if decide (key = "folio")
    then match list_find (fun pat => is_Some (re_search (Pattern pat IGNORECASE) subject))
                 folio_patterns with
         | Some (_, pat) =>
             (fun m => group_val m 1) <$> re_search (Pattern pat IGNORECASE) subject
         | None => None
         end
    else None.
Proof.
  unfold _extract_from_subject.
  destruct (re_search rut_pattern subject) as [m|] eqn:E.
  - case_decide; subst; [by rewrite lookup_insert_eq|].
    rewrite lookup_insert_ne by done. rewrite folio_loop_lookup, !lookup_empty.
    by case_decide.
  - rewrite folio_loop_lookup, !lookup_empty. by repeat case_decide; subst.
Qed.

Lemma _extract_from_subject_found subject key v :
  _extract_from_subject subject !! key = Some v → found v.
Proof.
  rewrite _extract_from_subject_lookup. repeat case_decide; try done.
  - destruct (re_search rut_pattern subject) as [m|] eqn:E; [|done].
    intros [= <-]. apply re_search_matched in E.
    destruct (group_val_solid rut_pattern _ 1 eq_refl eq_refl E) as (w & -> & Hw & _).
    by exists w.
  - destruct (list_find _ folio_patterns) as [[i pat]|] eqn:Hf; [|done].
    apply list_find_Some in Hf as (Hi & _ & _).
    destruct (re_search (Pattern pat IGNORECASE) subject) as [m|] eqn:E; [|done].
    intros [= <-]. apply re_search_matched in E.
    pose proof (proj1 (Forall_lookup _ _) folio_patterns_ok _ _ Hi) as [Hg Hs].
    destruct (group_val_solid (Pattern pat IGNORECASE) _ 1 Hg Hs E) as (w & -> & Hw & _).
    by exists w.
Qed.

Lemma _extract_from_subject_keys subject key :
  key ≠ "folio" → key ≠ "rut_from_subject" → _extract_from_subject subject !! key = None.
Proof. intros. rewrite _extract_from_subject_lookup. by repeat case_decide. Qed.

(** *** The values of the date extractor *)

Lemma occurrence_matched patterns text i m :
  table_ok patterns → occurrence patterns text i = Some m →
  ∃ v, group m 1 = Some v ∧ solid_word v.
Proof.
  unfold occurrence. intros Hok. induction Hok as [|pat patterns Hpat Hok IH]; [done|].
  simpl. destruct (re_finditer (Pattern pat IGNORECASE) text !! i) as [m'|] eqn:E; [|done].
  simpl. intros [= ->]. eapply table_ok_group; [done|].
  eapply (proj1 (Forall_lookup _ _)); [apply re_finditer_matched|done].
Qed.

Lemma date_value_solid patterns text i m :
  table_ok patterns → occurrence patterns text i = Some m →
  ∃ v, group m 1 = Some v ∧ date_value m = PyStr v ∧ v ≠ [].
Proof.
  intros Hok Hm. destruct (occurrence_matched _ _ _ _ Hok Hm) as (v & Hv & Hne & Hs).
  exists v. unfold date_value. rewrite Hv. simpl. by rewrite Hs.
Qed.

Lemma occurrence_rank patterns text i j :
  (i ≤ j)%nat → is_Some (occurrence patterns text j) → is_Some (occurrence patterns text i).
Proof.
  unfold occurrence. intros Hij. induction patterns as [|pat patterns IH]; simpl.
  - by intros [??].
  - destruct (re_finditer (Pattern pat IGNORECASE) text !! j) as [mj|] eqn:Ej.
    + intros _. apply lookup_lt_Some in Ej.
      destruct (lookup_lt_is_Some_2 (re_finditer (Pattern pat IGNORECASE) text) i)
        as [mi ->]; [lia|]. by eexists.
    + intros H. destruct (re_finditer (Pattern pat IGNORECASE) text !! i); [by eexists|auto].
Qed.

Lemma dates_of_found text key v : dates_of text !! key = Some v → found v.
Proof.
  rewrite dates_of_lookup.
  assert (H : ∀ i, date_value <$> occurrence DATE_PATTERNS text i = Some v → found v).
  { intros i. destruct (occurrence DATE_PATTERNS text i) as [m|] eqn:E; [|done].
    intros [= <-].
    destruct (date_value_solid _ _ _ _ DATE_PATTERNS_ok E) as (w & _ & -> & Hw).
    by exists w. }
  repeat case_decide; eauto. done.
Qed.

(** *** The values of the attribute map *)

Lemma extracted_lookup subject body key :
  extracted subject body !! key =
    let combined := combine subject body in
    if decide (key = "address")
    then (if truthy (address_of combined) then Some (address_of combined) else None)
    else if decide (key = "customer_number")
    then (if truthy (customer_of combined) then Some (customer_of combined) else None)
    else if decide (key = "total_amount")
    then (if truthy (_extract_total_amount combined)
          then Some (_extract_total_amount combined) else None)
    else match dates_of combined !! key with
         | Some v => Some v
         | None => _extract_from_subject subject !! key
         end.
Proof.
  rewrite extracted_eq. simpl. rewrite !lookup_store, !lookup_update, lookup_empty.
  assert (Hd : ∀ k, k ≠ "billing_period_start" → k ≠ "billing_period_end" →
               dates_of (combine subject body) !! k = None).
  { intros k ??. rewrite dates_of_lookup. by repeat case_decide. }
  repeat case_decide; subst; try done;
    rewrite ?Hd, ?_extract_from_subject_keys by done; try done.
  rewrite lookup_empty.
  destruct (dates_of _ !! key); [done|]. by destruct (_extract_from_subject _ !! key).
Qed.

Lemma combine_capped subject body : combine subject body = capped subject body.
Proof.
  unfold combine, capped, slice_to, len.
  destruct (15000 <? _) eqn:E; [done|].
  apply N.ltb_ge in E. rewrite take_ge; [done|lia].
Qed.

Lemma extracted_subject_keys subject body key :
  key = "folio" ∨ key = "rut_from_subject" →
  extracted subject body !! key = _extract_from_subject subject !! key.
Proof.
  intros Hk. rewrite extracted_lookup. simpl. rewrite dates_of_lookup.
  destruct Hk as [-> | ->]; by repeat case_decide.
Qed.

Lemma folio_patterns_bodies :
  Forall (fun r => group_bodies r = [atleast digit 6]) folio_patterns.
Proof. repeat constructor. Qed.

Lemma folio_value subject pat m :
  pat ∈ folio_patterns → re_search (Pattern pat IGNORECASE) subject = Some m →
  ∃ v, group_val m 1 = PyStr v ∧ (6 ≤ length v)%nat ∧ Forall is_digit v.
Proof.
  intros Hpat Hm. apply re_search_matched in Hm.
  pose proof (proj1 (Forall_forall _ _) folio_patterns_ok _ Hpat) as [_ Hs].
  pose proof (proj1 (Forall_forall _ _) folio_patterns_bodies _ Hpat) as Hb.
  destruct (matched_sets (Pattern pat IGNORECASE) m 1 Hs Hm) as [v Hv].
  exists v. unfold group_val. rewrite Hv. split; [done|].
  destruct (matched_group_body _ _ _ _ Hm Hv) as (g & Hg & Hl).
  simpl in Hg. rewrite Hb in Hg. apply list_elem_of_singleton in Hg as ->.
  by eapply digits_word.
Qed.

(** ** Where the matches stand in the text *)

Lemma drop_len_app (pos : N) (u v : str) :
  drop (N.to_nat (pos + len u - pos)) (u ++ v) = v.
Proof.
  replace (N.to_nat (pos + len u - pos)) with (length u) by (unfold len; lia).
  by rewrite drop_app_length.
Qed.

Lemma re_search_first p text m : re_search p text = Some m → first_match p text m.
Proof.
  intros (pre & post & -> & H & Hl)%search_from_inv. exists pre, post.
  rewrite N.add_0_l in H. split; [done|]. split; [done|].
  intros p1 p2 Hp Hne. specialize (Hl p1 p2 Hp Hne). by rewrite N.add_0_l in Hl.
Qed.

Lemma search_from_occurs p pos s m :
  search_from p pos s = Some m →
  ∃ pre w post,
    s = pre ++ w ++ post ∧ m_start m = pos + len pre ∧
    m_end m = pos + len pre + len w ∧ lang (p_flags p) (p_re p) w.
Proof.
  intros (pre & s1 & -> & H & _)%search_from_inv.
  destruct (match_at_inv _ _ _ _ _ (grp_ok_True _ _) H)
    as (w & post & -> & Hw & Hs & He & _).
  by exists pre, w, post.
Qed.

Lemma finditer_from_occurs p text fuel pos s pre0 :
  text = pre0 ++ s → len pre0 = pos →
  Forall (occurs p text) (finditer_from fuel p pos s).
Proof.
  revert pos s pre0. induction fuel as [|fuel IH]; intros pos s pre0 Ht Hp; simpl; [done|].
  destruct (search_from p pos s) as [m|] eqn:E; [|done].
  destruct (search_from_occurs _ _ _ _ E) as (pre & w & post & -> & Hs & He & Hw).
  assert (Hdrop : drop (N.to_nat (m_end m - pos)) (pre ++ w ++ post) = post).
  { rewrite He, <- N.add_assoc, <- len_app, app_assoc. apply drop_len_app. }
  assert (Hend : m_end m = len (pre0 ++ pre ++ w)).
  { rewrite He, !len_app. lia. }
  constructor.
  - exists (pre0 ++ pre), w, post. rewrite <- !app_assoc. split; [done|].
    split; [rewrite Hs, len_app; lia|]. split; [done|]. split; [done|].
    unfold slice_from. rewrite Hend, Ht.
    replace (pre0 ++ pre ++ w ++ post) with ((pre0 ++ pre ++ w) ++ post)
      by (by rewrite <- !app_assoc).
    unfold len. rewrite Nat2N.id. apply drop_app_length.
  - rewrite Hdrop. destruct (m_start m <? m_end m).
    + apply (IH _ _ (pre0 ++ pre ++ w)); [by rewrite Ht, <- !app_assoc|done].
    + destruct post as [|t post]; [done|].
      apply (IH _ _ (pre0 ++ pre ++ w ++ [t])).
      * rewrite Ht, <- !app_assoc. done.
      * rewrite Hend, !len_app, len_cons, len_nil. lia.
Qed.

Lemma re_finditer_occurs p text : Forall (occurs p text) (re_finditer p text).
Proof. by apply (finditer_from_occurs p text _ 0 text []). Qed.

(** ** The total amount *)

Lemma matched_alt r1 r2 f m :
  matched (Pattern (Alt r1 r2) f) m →
  matched (Pattern r1 f) m ∨ matched (Pattern r2 f) m.
Proof.
  intros (pos & s & H). unfold match_at in H. simpl in H.
  destruct (mtch f r1 pos s ∅ _) as [x|] eqn:E.
  - left. exists pos, s. unfold match_at. simpl. by rewrite E.
  - right. by exists pos, s.
Qed.

Lemma amount_number_solid w : lang IGNORECASE amount_number w → solid_word w.
Proof. by apply solid_sound. Qed.

Lemma amount_group am i v :
  matched _AMOUNT_RE am → group am i = Some v → lang IGNORECASE amount_number v.
Proof.
  intros Hm Hv. destruct (matched_group_body _ _ _ _ Hm Hv) as (g & Hg & Hl).
  change (group_bodies (p_re _AMOUNT_RE)) with [amount_number; amount_number] in Hg.
  by apply elem_of_cons in Hg as [->| ->%list_elem_of_singleton].
Qed.

Lemma amount_some_group am :
  matched _AMOUNT_RE am → is_Some (group am 1) ∨ is_Some (group am 2).
Proof.
  intros [H|H]%matched_alt.
  - left. by apply (matched_sets _ _ 1) in H.
  - right. by apply (matched_sets _ _ 2) in H.
Qed.

(** The raw amount of the code is the number of the match: stripping it
    changes nothing, and it is never empty. *)
Lemma amount_raw_token am :
  matched _AMOUNT_RE am →
  amount_raw am = amount_token am ∧
  lang IGNORECASE amount_number (amount_token am) ∧
  amount_token am ≠ [].
Proof.
  intros Hm. unfold amount_raw, amount_token, group_val.
  destruct (group am 1) as [v|] eqn:E1.
  - pose proof (amount_group _ _ _ Hm E1) as Hl.
    destruct (amount_number_solid _ Hl) as [Hne Hs]. simpl.
    destruct v as [|t v]; [done|]. simpl. by rewrite Hs.
  - destruct (amount_some_group _ Hm) as [[v Hv]|[v Hv]]; [congruence|].
    rewrite Hv. pose proof (amount_group _ _ _ Hm Hv) as Hl.
    destruct (amount_number_solid _ Hl) as [Hne Hs]. simpl.
    destruct v as [|t v]; [done|]. simpl. by rewrite Hs.
Qed.

Lemma total_loop_head text ms :
  total_loop text ms =
    amount_token <$>
      head (omap (fun label_match => re_search _AMOUNT_RE (window text label_match)) ms).
Proof.
  induction ms as [|lm ms IH]; [done|]. simpl. fold (window text lm).
  destruct (re_search _AMOUNT_RE (window text lm)) as [am|] eqn:E; [|done].
  destruct (amount_raw_token am (re_search_matched _ _ _ E)) as (-> & _ & Hne).
  simpl. by destruct (amount_token am).
Qed.

Lemma _extract_total_amount_eq text :
  _extract_total_amount text =
    match labelled_amount text with
    | Some am => PyStr (amount_token am)
    | None => of_option (amount_token <$> re_search _AMOUNT_RE text)
    end.
Proof.
  unfold _extract_total_amount, labelled_amount. rewrite total_loop_head.
  destruct (head _) as [am|]; [done|]. simpl.
  destruct (re_search _AMOUNT_RE text) as [am|] eqn:E; [|done].
  destruct (amount_raw_token am (re_search_matched _ _ _ E)) as (-> & _ & Hne).
  simpl. unfold py_or. simpl. by destruct (amount_token am).
Qed.

Lemma finditer_from_bounds p fuel pos s :
  Forall (fun m => pos ≤ m_start m) (finditer_from fuel p pos s).
Proof.
  revert pos s. induction fuel as [|fuel IH]; intros pos s; simpl; [done|].
  destruct (search_from p pos s) as [m|] eqn:E; [|done].
  destruct (search_from_occurs _ _ _ _ E) as (pre & w & post & _ & Hs & He & _).
  constructor; [lia|].
  destruct (m_start m <? m_end m).
  - eapply Forall_impl; [apply IH|]. simpl. intros m' ?. lia.
  - destruct (drop _ s) as [|t s2]; [done|].
    eapply Forall_impl; [apply IH|]. simpl. intros m' ?. lia.
Qed.

Lemma finditer_from_left_to_right p fuel pos s :
  left_to_right (finditer_from fuel p pos s).
Proof.
  revert pos s. induction fuel as [|fuel IH]; intros pos s; simpl; [by intros [|?] ?|].
  destruct (search_from p pos s) as [m|] eqn:E; [|by intros [|?] ?].
  intros [|i] [|j] mi mj Hij Hi Hj; simpl in *; try lia.
  - injection Hi as <-.
    destruct (m_start m <? m_end m).
    + pose proof (proj1 (Forall_lookup _ _) (finditer_from_bounds _ _ _ _) _ _ Hj). done.
    + destruct (drop _ s) as [|t s2]; [done|].
      pose proof (proj1 (Forall_lookup _ _) (finditer_from_bounds _ _ _ _) _ _ Hj).
      simpl in *. lia.
  - destruct (m_start m <? m_end m).
    + eapply IH; [|done..]. lia.
    + destruct (drop _ s) as [|t s2]; [done|]. eapply IH; [|done..]. lia.
Qed.

Lemma re_finditer_left_to_right p text : left_to_right (re_finditer p text).
Proof. apply finditer_from_left_to_right. Qed.

Lemma labelled_amount_first text before lm after am :
  re_finditer _TOTAL_LABELS text = before ++ lm :: after →
  Forall (no_amount text) before →
  re_search _AMOUNT_RE (window text lm) = Some am →
  labelled_amount text = Some am.
Proof.
  intros Hms Hb Hlm. unfold labelled_amount. rewrite Hms, omap_app.
  replace (omap _ before) with (@nil Match).
  - simpl. by rewrite Hlm.
  - clear Hms. induction Hb as [|l before Hl _ IH]; [done|]. simpl.
    unfold no_amount in Hl. by rewrite Hl.
Qed.

Lemma labelled_amount_none text :
  Forall (no_amount text) (re_finditer _TOTAL_LABELS text) →
  labelled_amount text = None.
Proof.
  unfold labelled_amount. induction 1 as [|l ms Hl _ IH]; [done|]. simpl.
  unfold no_amount in Hl. by rewrite Hl.
Qed.

(** ** Repetition of a character set *)

Lemma rep_chr_word f neg items lo hi v :
  lang f (Rep (Chr neg items) lo hi) v →
  (lo ≤ length v)%nat ∧
  match hi with Some h => (length v ≤ Nat.max lo h)%nat | None => True end ∧
  Forall (fun t => chr_in f neg items t = true) v.
Proof.
  simpl. intros (ws & -> & Hws & Hlo & Hhi).
  assert (H : length (concat ws) = length ws
              ∧ Forall (fun t => chr_in f neg items t = true) (concat ws)).
  { clear Hlo Hhi. induction Hws as [|w ws (t & -> & Ht) _ [IH1 IH2]]; [done|].
    simpl. split; [by rewrite IH1|by constructor]. }
  destruct H as [-> ?]. done.
Qed.

Lemma take_while_prefix p s : take_while p s ++ drop (length (take_while p s)) s = s.
Proof.
  induction s as [|t s IH]; simpl; [done|].
  destruct (p t); simpl; [by rewrite IH|done].
Qed.


Section Greedy.
Context {R : Type}.
Variable f : flags.
Variable neg : bool.
Variable items : list citem.
Variable k : N → str → groups → option R.
(** A continuation that accepts whatever it is given: the repetition then
    takes all it can. *)
Hypothesis k_total : ∀ pos s c, is_Some (k pos s c).

Lemma rep_more_chr fl n pos s c :
  (length s ≤ length fl)%nat →
  rep_more (mtch f (Chr neg items)) k fl n pos s c =
    k (pos + len (bounded n (take_while (chr_in f neg items) s)))
      (drop (length (bounded n (take_while (chr_in f neg items) s))) s) c.
Proof.
  revert n pos s c. induction fl as [|x fl IH]; intros n pos s c Hlen.
  - destruct s; [|simpl in Hlen; lia]. simpl.
    destruct n as [[|h]|]; simpl; by rewrite N.add_0_r.
  - assert (Hstop : ∀ u, u = [] →
        k pos s c = k (pos + len u) (drop (length u) s) c).
    { intros u ->. by rewrite len_nil, N.add_0_r. }
    destruct n as [[|h]|]; cbn [rep_more].
    + apply Hstop. by destruct (take_while _ s).
    + cbn [mtch]. destruct s as [|t s]; [by apply Hstop|].
      cbn [take_while]. destruct (chr_in f neg items t); [|by apply Hstop].
      replace (pos <? N.succ pos) with true by (symmetry; apply N.ltb_lt; lia).
      cbn [fmap option_fmap option_map pred]. rewrite IH by (simpl in Hlen; lia).
      destruct (k_total (N.succ pos + len (bounded (Some h) (take_while (chr_in f neg items) s)))
                 (drop (length (bounded (Some h) (take_while (chr_in f neg items) s))) s) c)
        as [x0 Hx]. rewrite Hx. rewrite <- Hx. cbn [bounded take length drop].
      rewrite len_cons. f_equal. lia.
    + cbn [mtch]. destruct s as [|t s]; [by apply Hstop|].
      cbn [take_while]. destruct (chr_in f neg items t); [|by apply Hstop].
      replace (pos <? N.succ pos) with true by (symmetry; apply N.ltb_lt; lia).
      cbn [fmap option_fmap option_map]. rewrite IH by (simpl in Hlen; lia).
      destruct (k_total (N.succ pos + len (bounded None (take_while (chr_in f neg items) s)))
                 (drop (length (bounded None (take_while (chr_in f neg items) s))) s) c)
        as [x0 Hx]. rewrite Hx. rewrite <- Hx. cbn [bounded take length drop].
      rewrite len_cons. f_equal. lia.
Qed.

Lemma rep_must_chr m n pos s c :
  (m ≤ length (take_while (chr_in f neg items) s))%nat →
  rep_must (mtch f (Chr neg items)) k m n pos s c =
    k (pos + len (bounded ((fun h => (m + h)%nat) <$> n) (take_while (chr_in f neg items) s)))
      (drop (length (bounded ((fun h => (m + h)%nat) <$> n)
                       (take_while (chr_in f neg items) s))) s) c.
Proof.
  revert pos s c. induction m as [|m IH]; intros pos s c Hm; cbn [rep_must].
  - rewrite rep_more_chr by done. by destruct n.
  - destruct s as [|t s]; [simpl in Hm; lia|]. cbn [take_while mtch] in *.
    destruct (chr_in f neg items t); [|simpl in Hm; lia].
    rewrite IH by (simpl in Hm; lia).
    destruct n as [h|]; cbn [fmap option_fmap option_map bounded take length drop Nat.add];
      rewrite len_cons; f_equal; lia.
Qed.
End Greedy.

(** ** The address *)


Lemma mtch_Rep {R} f r lo hi pos s c (k : N → str → groups → option R) :
  mtch f (Rep r lo hi) pos s c k =
    rep_must (mtch f r) k lo ((fun h => (h - lo)%nat) <$> hi) pos s c.
Proof. done. Qed.


Lemma take_while_ext p q s : (∀ t, p t = q t) → take_while p s = take_while q s.
Proof. intros H. induction s as [|t s IH]; simpl; [done|]. by rewrite H, IH. Qed.

Lemma not_break_chr t : chr_in NOFLAG true [CLit LF; CLit CR] t = negb (is_break t).
Proof. unfold chr_in, is_break. simpl. by rewrite orb_false_r. Qed.


Lemma address_line_word rest line_match :
  re_search address_line rest = Some line_match →
  ∃ v, group line_match 1 = Some v ∧ (5 ≤ length v ≤ 120)%nat ∧
       Forall (fun t => is_break t = false) v.
Proof.
  intros H%re_search_matched.
  destruct (matched_sets address_line line_match 1 eq_refl H) as [v Hv].
  exists v. split; [done|].
  destruct (matched_group_body _ _ _ _ H Hv) as (g & Hg & Hl).
  change (group_bodies (p_re address_line)) with [rep (nset [CLit LF; CLit CR]) 5 120] in Hg.
  apply list_elem_of_singleton in Hg as ->.
  apply rep_chr_word in Hl as (Hlo & Hhi & Hall).
  split; [simpl in Hhi; lia|].
  eapply Forall_impl; [exact Hall|]. intros t Ht. cbv beta in *.
  rewrite not_break_chr in Ht. by apply negb_true_iff.
Qed.

Lemma address_loop_head text ms :
  address_loop text ms = Returns (of_option (head (omap (address_candidate text) ms))).
Proof.
  induction ms as [|lm ms IH]; [done|]. simpl. unfold address_candidate at 1.
  destruct (re_search address_line _) as [line_match|] eqn:E; [|done].
  destruct (matched_sets address_line line_match 1 eq_refl (re_search_matched _ _ _ E))
    as [v Hv].
  unfold group_val. rewrite Hv. simpl. unfold address_value. rewrite Hv. simpl.
  destruct (strip _); [exact IH|done].
Qed.

Lemma _extract_address_eq text :
  _extract_address text =
    Returns (of_option (head (omap (address_candidate text)
                                (re_finditer _ADDRESS_LABELS text)))).
Proof. apply address_loop_head. Qed.

(** ** The customer number *)

Lemma customer_loop_head text ms :
  customer_loop text ms = Returns (of_option (head (omap (customer_candidate text) ms))).
Proof.
  induction ms as [|lm ms IH]; [done|]. simpl. unfold customer_candidate at 1.
  destruct (re_search customer_digits _) as [num_match|] eqn:E; [|done].
  destruct (group_val_solid customer_digits num_match 1 eq_refl eq_refl
              (re_search_matched _ _ _ E)) as (v & Hv & _ & Hs).
  rewrite Hv. unfold group_val in Hv. simpl.
  destruct (group num_match 1) as [v'|]; [|done]. injection Hv as ->.
  simpl. by rewrite Hs.
Qed.

(** ** The claims *)

(** C1.  For every subject and body, [extract_attributes_from_email_body]
    does not raise and returns a dictionary.  Whatever its five extractors
    do, the aggregator returns: when one of them raises, the exception is
    logged and the result is exactly what the steps before it have
    accumulated (the empty dictionary when the first one raises).  The
    empty subject and body give the empty dictionary. *)
Theorem C1_never_raises
    (extract_from_subject extract_dates : str → outcome AttributeMap)
    (extract_total_amount extract_customer_number extract_address : str → outcome pyval)
    (subject body : str) (log : Log) :
  (∃ attributes log',
     extract_attributes_from_email_body subject body log = (Returns attributes, log'))
  ∧ extract_attributes_with extract_from_subject extract_dates extract_total_amount
      extract_customer_number extract_address subject body log
    = (Returns
         (accumulated
            (steps extract_from_subject extract_dates extract_total_amount
               extract_customer_number extract_address subject body) ∅),
       log ++ raised
                (steps extract_from_subject extract_dates extract_total_amount
                   extract_customer_number extract_address subject body))
  ∧ extract_attributes_from_email_body [] [] log = (Returns ∅, log).
Proof.
  split; [|split].
  - rewrite extract_attributes_from_email_body_eq. eauto.
  - unfold extract_attributes_with, try_block, steps.
    unfold mbind, block_bind, call, attributes_update, attributes_set, store, fmap,
      outcome_fmap, mret, block_ret.
    destruct (extract_from_subject subject) as [subject_attrs|e]; simpl;
      [|done].
    destruct (extract_dates _) as [dates|e]; simpl; [|done].
    destruct (extract_total_amount _) as [total|e]; simpl;
      [|done].
    destruct (extract_customer_number _) as [customer|e]; simpl;
      [destruct (truthy total)|by destruct (truthy total)].
    all: destruct (extract_address _) as [address|e]; simpl;
      destruct (truthy customer); simpl; try destruct (truthy address); simpl;
      by rewrite ?app_nil_r.
  - rewrite extract_attributes_from_email_body_eq. by vm_compute.
Qed.

(** C2, as the code has it.  The three date patterns are taken in the order
    of the table.  Within one pattern the first occurrence is for
    [billing_period_start] and the second for [billing_period_end]; later
    occurrences are ignored.  So [billing_period_start] is the first
    occurrence of the first pattern that occurs in the text, and
    [billing_period_end] is the second occurrence of the first pattern that
    occurs at least twice: a later pattern fills a slot that the earlier
    patterns left empty, with its own occurrence of that rank, and a filled
    slot is never overwritten.  The value stored is the matched text as it
    stands, and no other key is set.  So two numeric dates fill the two
    slots, and one numeric date followed by two Spanish long dates gives the
    numeric date as start and the second long date as end. *)
Theorem C2_date_slots :
  (∀ text,
     ∃ dates,
       _extract_dates text = Returns dates ∧
       dates !! "billing_period_start" = date_value <$> occurrence DATE_PATTERNS text 0 ∧
       dates !! "billing_period_end" = date_value <$> occurrence DATE_PATTERNS text 1 ∧
       (∀ key, key ∉ _DATE_KEYS → dates !! key = None) ∧
       (∀ i m, occurrence DATE_PATTERNS text i = Some m →
               ∃ v, group m 1 = Some v ∧ date_value m = PyStr v ∧ v ≠ []))
  ∧ (dates_of (py "Periodo 01/03/2024 al 31/03/2024") !! "billing_period_start"
       = Some (PyStr (py "01/03/2024"))
     ∧ dates_of (py "Periodo 01/03/2024 al 31/03/2024") !! "billing_period_end"
       = Some (PyStr (py "31/03/2024")))
  ∧ (dates_of (py "01/03/2024, 5 de marzo de 2024 y 9 de abril de 2024")
       !! "billing_period_start" = Some (PyStr (py "01/03/2024"))
     ∧ dates_of (py "01/03/2024, 5 de marzo de 2024 y 9 de abril de 2024")
       !! "billing_period_end" = Some (PyStr (py "9 de abril de 2024"))).
Proof.
  split; [|by vm_compute].
  intros text. exists (dates_of text). split; [apply _extract_dates_returns|].
  rewrite !dates_of_lookup. repeat split; try done.
  - intros key Hk. rewrite dates_of_lookup.
    repeat case_decide; subst; try done; exfalso; apply Hk; set_solver.
  - intros i m. apply date_value_solid, DATE_PATTERNS_ok.
Qed.

(** C2 as stated fails: with one numeric date and one Spanish long date in
    the text, the union of the occurrences has two dates, yet the code
    leaves [billing_period_end] empty, since no single pattern occurs
    twice. *)
Lemma C2_counterexample :
  ¬ dates_by_union (py "01/03/2024 y 5 de marzo de 2024").
Proof.
  unfold dates_by_union. intros H.
  assert (H' : value_of ∅ (_extract_dates (py "01/03/2024 y 5 de marzo de 2024"))
                 !! "billing_period_end"
               = union_slots DATE_PATTERNS (py "01/03/2024 y 5 de marzo de 2024")
                 !! "billing_period_end") by (by rewrite H).
  vm_compute in H'. discriminate H'.
Qed.

(** C3, as the code has it.  The fields other than [folio] and
    [rut_from_subject] are matched within the first 15,000 characters of
    [subject + "\n\n" + body]: two inputs that agree on these characters
    give the same values for them.  [folio] and [rut_from_subject] are
    those of the subject extractor, which reads the whole subject, capped or
    not. *)
Theorem C3_fields_within_cap subject body subject' body' log log' :
  capped subject body = capped subject' body' →
  (∀ key, key ≠ "folio" → key ≠ "rut_from_subject" →
     attributes_of (extract_attributes_from_email_body subject body log) !! key
     = attributes_of (extract_attributes_from_email_body subject' body' log') !! key)
  ∧ (∀ key, key = "folio" ∨ key = "rut_from_subject" →
       attributes_of (extract_attributes_from_email_body subject body log) !! key
       = _extract_from_subject subject !! key).
Proof.
  intros Hcap. rewrite !attributes_of_eq. split.
  - intros key H1 H2. rewrite !extracted_lookup. simpl.
    rewrite !combine_capped, Hcap, !_extract_from_subject_lookup.
    by repeat case_decide.
  - apply extracted_subject_keys.
Qed.

Lemma C3_fields_within_cap_witness :
  capped (py "Total: $100 " ++ padding ++ py "Folio: 123456") (py "Total: $7")
  = capped (py "Total: $100 " ++ padding ++ py "Folio: 654321") (py "Total: $9")
  ∧ attributes_of
      (extract_attributes_from_email_body
         (py "Total: $100 " ++ padding ++ py "Folio: 123456") (py "Total: $7") [])
      !! "total_amount"
    = attributes_of
        (extract_attributes_from_email_body
           (py "Total: $100 " ++ padding ++ py "Folio: 654321") (py "Total: $9") [])
        !! "total_amount".
Proof.
  assert (H : capped (py "Total: $100 " ++ padding ++ py "Folio: 123456") (py "Total: $7")
              = capped (py "Total: $100 " ++ padding ++ py "Folio: 654321") (py "Total: $9"))
    by (vm_compute; reflexivity).
  split; [exact H|].
  exact (proj1 (C3_fields_within_cap _ _ _ _ [] [] H) "total_amount"
           ltac:(discriminate) ltac:(discriminate)).
Defined.

(** C3 as stated fails for the fields of the subject extractor: a folio
    that stands after 15,000 spaces in the subject is extracted, so two
    subjects that agree on their first 15,000 characters give different
    attributes. *)
Lemma C3_counterexample :
  ¬ within_cap (padding ++ py "Folio: 123456") [] (padding ++ py "Folio: 654321") [].
Proof.
  unfold within_cap. intros H.
  pose proof (H ltac:(by vm_compute) ltac:(by vm_compute)) as Heq.
  pose proof (extracted_subject_keys (padding ++ py "Folio: 123456") [] "folio"
                (or_introl eq_refl)) as E1.
  pose proof (extracted_subject_keys (padding ++ py "Folio: 654321") [] "folio"
                (or_introl eq_refl)) as E2.
  assert (E : _extract_from_subject (padding ++ py "Folio: 123456") !! "folio"
              = _extract_from_subject (padding ++ py "Folio: 654321") !! "folio").
  { etrans; [symmetry; exact E1|]. etrans; [|exact E2].
    exact (f_equal (.!! "folio") Heq). }
  vm_compute in E. discriminate E.
Qed.

(** C4.  The total-amount labels of the text are its occurrences of the
    label pattern, from left to right.  The amount pattern is searched in
    the window of each, the 60 characters that follow the label; the result
    is the number of the first amount found in the window of the first label
    whose window holds one, as it stands in the text: a decimal-grouped
    number, with neither the [$] sign nor the currency marker.  The window
    of a label is the text that follows it, cut after 60 characters: an
    amount that ends at the 60th character is found, one that ends at the
    61st is not, and the scan goes on to the next label.  In particular the
    body [Total a pagar: $45.990] gives the total amount [45.990]. *)
Theorem C4_labelled_total :
  (∀ text,
     Forall (occurs _TOTAL_LABELS text) (re_finditer _TOTAL_LABELS text)
     ∧ left_to_right (re_finditer _TOTAL_LABELS text))
  ∧ (∀ text before label_match after amount_match,
       re_finditer _TOTAL_LABELS text = before ++ label_match :: after →
       Forall (no_amount text) before →
       re_search _AMOUNT_RE (window text label_match) = Some amount_match →
       _extract_total_amount text = PyStr (amount_token amount_match)
       ∧ first_match _AMOUNT_RE (window text label_match) amount_match
       ∧ lang IGNORECASE amount_number (amount_token amount_match)
       ∧ amount_token amount_match ≠ [])
  ∧ (is_Some (labelled_amount (combine (py "") (py "Total a pagar: $45.990")))
     ∧ ∀ log,
         attributes_of
           (extract_attributes_from_email_body (py "") (py "Total a pagar: $45.990") log)
           !! "total_amount" = Some (PyStr (py "45.990")))
  ∧ (∀ log,
       attributes_of
         (extract_attributes_from_email_body (py "Su boleta de electricidad")
            (py "Estimado cliente, Total a pagar: $45.990 antes del 05/04/2024") log)
         !! "total_amount" = Some (PyStr (py "45.990")))
  ∧ (∀ text label_match,
       label_match ∈ re_finditer _TOTAL_LABELS text →
       ∃ pre label post,
         text = pre ++ label ++ post ∧
         lang IGNORECASE (p_re _TOTAL_LABELS) label ∧
         m_end label_match = len (pre ++ label) ∧
         window text label_match = take 60 post ∧
         (length (window text label_match) ≤ 60)%nat)
  ∧ (∀ log,
       attributes_of
         (extract_attributes_from_email_body (py "")
            (py "Pago $1. Total: " ++ equals_signs 58 ++ py "$2") log)
         !! "total_amount" = Some (PyStr (py "2"))
       ∧ labelled_amount
           (combine (py "") (py "Pago $1. Total: " ++ equals_signs 59 ++ py "$2")) = None
       ∧ attributes_of
           (extract_attributes_from_email_body (py "")
              (py "Pago $1. Total: " ++ equals_signs 59 ++ py "$2") log)
           !! "total_amount" = Some (PyStr (py "1"))
       ∧ attributes_of
           (extract_attributes_from_email_body (py "")
              (py "Pago $1. Total: " ++ equals_signs 61 ++ py " Total a pagar: $2") log)
           !! "total_amount" = Some (PyStr (py "2"))).
Proof.
  split; [|split; [|split; [|split; [|split]]]].
  - intros text. split; [apply re_finditer_occurs|apply re_finditer_left_to_right].
  - intros text before lm after am Hms Hb Ham.
    rewrite _extract_total_amount_eq, (labelled_amount_first _ _ _ _ _ Hms Hb Ham).
    destruct (amount_raw_token am (re_search_matched _ _ _ Ham)) as (_ & Hl & Hne).
    split; [done|]. split; [by apply re_search_first|done].
  - split; [eexists; vm_compute; reflexivity|].
    intros log. rewrite attributes_of_eq. by vm_compute.
  - intros log. rewrite attributes_of_eq. by vm_compute.
  - intros text lm Hlm.
    pose proof (re_finditer_occurs _TOTAL_LABELS text) as Hocc.
    rewrite Forall_forall in Hocc.
    destruct (Hocc _ Hlm) as (pre & label & post & Htext & _ & Hend & Hlabel & Hpost).
    exists pre, label, post. unfold window. rewrite Hpost. unfold slice_to.
    repeat split; try done. rewrite length_take. change (N.to_nat 60) with 60%nat. lia.
  - intros log. rewrite !attributes_of_eq. repeat split; by vm_compute.
Qed.

Lemma C4_labelled_total_witness :
  re_finditer _TOTAL_LABELS
    (combine (py "") (py "Pago $1. Total: " ++ equals_signs 61 ++ py " Total a pagar: $2"))
    = [{| m_start := 11; m_end := 18; m_groups := ∅ |}]
      ++ {| m_start := 80; m_end := 95; m_groups := ∅ |} :: []
  ∧ Forall
      (no_amount
         (combine (py "") (py "Pago $1. Total: " ++ equals_signs 61 ++ py " Total a pagar: $2")))
      [{| m_start := 11; m_end := 18; m_groups := ∅ |}]
  ∧ re_search _AMOUNT_RE
      (window
         (combine (py "") (py "Pago $1. Total: " ++ equals_signs 61 ++ py " Total a pagar: $2"))
         {| m_start := 80; m_end := 95; m_groups := ∅ |})
    = Some {| m_start := 0; m_end := 2; m_groups := {[ 1%nat := py "2" ]} |}
  ∧ _extract_total_amount
      (combine (py "") (py "Pago $1. Total: " ++ equals_signs 61 ++ py " Total a pagar: $2"))
    = PyStr (amount_token {| m_start := 0; m_end := 2; m_groups := {[ 1%nat := py "2" ]} |}).
Proof.
  assert (H1 : re_finditer _TOTAL_LABELS
                 (combine (py "") (py "Pago $1. Total: " ++ equals_signs 61 ++ py " Total a pagar: $2"))
               = [{| m_start := 11; m_end := 18; m_groups := ∅ |}]
                 ++ {| m_start := 80; m_end := 95; m_groups := ∅ |} :: [])
    by (vm_compute; reflexivity).
  assert (H2 : Forall
                 (no_amount
                    (combine (py "") (py "Pago $1. Total: " ++ equals_signs 61 ++ py " Total a pagar: $2")))
                 [{| m_start := 11; m_end := 18; m_groups := ∅ |}])
    by (constructor; [vm_compute; reflexivity|constructor]).
  assert (H3 : re_search _AMOUNT_RE
                 (window
                    (combine (py "") (py "Pago $1. Total: " ++ equals_signs 61 ++ py " Total a pagar: $2"))
                    {| m_start := 80; m_end := 95; m_groups := ∅ |})
               = Some {| m_start := 0; m_end := 2; m_groups := {[ 1%nat := py "2" ]} |})
    by (vm_compute; reflexivity).
  split; [exact H1|]. split; [exact H2|]. split; [exact H3|].
  exact (proj1 (proj1 (proj2 C4_labelled_total) _ _ _ _ _ H1 H2 H3)).
Defined.

(** C5.  When no total-amount label of the text has a currency amount in
    its window, the total amount is the number of the first match of the
    amount pattern in the whole text, and there is none when the pattern
    matches nowhere.  In particular a body without a total-amount label that
    mentions [12.500 CLP] gives the total amount [12.500], and so does a
    body whose only label is followed by 60 characters without an amount. *)
Theorem C5_fallback_total :
  (∀ text,
     Forall (no_amount text) (re_finditer _TOTAL_LABELS text) →
     _extract_total_amount text = of_option (amount_token <$> re_search _AMOUNT_RE text))
  ∧ (∀ text amount_match,
       re_search _AMOUNT_RE text = Some amount_match →
       first_match _AMOUNT_RE text amount_match
       ∧ lang IGNORECASE amount_number (amount_token amount_match)
       ∧ amount_token amount_match ≠ [])
  ∧ (re_finditer _TOTAL_LABELS
       (combine (py "Aviso de pago") (py "Se registra un cargo de 12.500 CLP en su cuenta"))
     = []
     ∧ ∀ log,
         attributes_of
           (extract_attributes_from_email_body (py "Aviso de pago")
              (py "Se registra un cargo de 12.500 CLP en su cuenta") log)
           !! "total_amount" = Some (PyStr (py "12.500")))
  ∧ (length
       (re_finditer _TOTAL_LABELS
          (combine (py "")
             (py ("Total: consulte el detalle de su cuenta en nuestro sitio web o en la"
                  +:+ " aplicacion. Ultimo pago: 12.500 CLP")))) = 1%nat
     ∧ labelled_amount
         (combine (py "")
            (py ("Total: consulte el detalle de su cuenta en nuestro sitio web o en la"
                 +:+ " aplicacion. Ultimo pago: 12.500 CLP"))) = None
     ∧ ∀ log,
         attributes_of
           (extract_attributes_from_email_body (py "")
              (py ("Total: consulte el detalle de su cuenta en nuestro sitio web o en la"
                   +:+ " aplicacion. Ultimo pago: 12.500 CLP")) log)
           !! "total_amount" = Some (PyStr (py "12.500"))).
Proof.
  split; [|split; [|split]].
  - intros text H. by rewrite _extract_total_amount_eq, labelled_amount_none.
  - intros text am Ham.
    destruct (amount_raw_token am (re_search_matched _ _ _ Ham)) as (_ & Hl & Hne).
    split; [by apply re_search_first|done].
  - split; [by vm_compute|]. intros log. rewrite attributes_of_eq. by vm_compute.
  - split; [by vm_compute|]. split; [by vm_compute|].
    intros log. rewrite attributes_of_eq. by vm_compute.
Qed.

Lemma C5_fallback_total_witness :
  Forall (no_amount (py "Se registra un cargo de 12.500 CLP en su cuenta"))
    (re_finditer _TOTAL_LABELS (py "Se registra un cargo de 12.500 CLP en su cuenta"))
  ∧ _extract_total_amount (py "Se registra un cargo de 12.500 CLP en su cuenta")
    = of_option
        (amount_token
           <$> re_search _AMOUNT_RE (py "Se registra un cargo de 12.500 CLP en su cuenta")).
Proof.
  assert (H : Forall (no_amount (py "Se registra un cargo de 12.500 CLP en su cuenta"))
                (re_finditer _TOTAL_LABELS
                   (py "Se registra un cargo de 12.500 CLP en su cuenta"))).
  { replace (re_finditer _TOTAL_LABELS _) with (@nil Match) by (by vm_compute).
    constructor. }
  split; [exact H|exact (proj1 C5_fallback_total _ H)].
Defined.



(** C7.  The folio is looked for in the subject with the four patterns
    ([folio], [n[úu]mero], [boleta], [factura], each followed by any run of
    colons and white space and by at least 6 digits), without regard to
    case, in that order: the first pattern that matches gives the folio, by
    its first match, and the later patterns are not tried; the folio is the
    run of digits, six or more; when no pattern matches the map has no
    [folio] key.  In particular the subject [Folio: 123456] gives the folio
    [123456]. *)
Theorem C7_folio_priority :
  (∀ subject body log,
     attributes_of (extract_attributes_from_email_body subject body log) !! "folio" =
       match list_find
               (fun pat => is_Some (re_search (Pattern pat IGNORECASE) subject))
               folio_patterns with
       | Some (_, pat) =>
           (fun m => group_val m 1) <$> re_search (Pattern pat IGNORECASE) subject
       | None => None
       end)
  ∧ (∀ subject pat m,
       pat ∈ folio_patterns → re_search (Pattern pat IGNORECASE) subject = Some m →
       ∃ v, group_val m 1 = PyStr v ∧ (6 ≤ length v)%nat ∧ Forall is_digit v)
  ∧ (∀ body log,
       attributes_of (extract_attributes_from_email_body (py "Folio: 123456") body log)
         !! "folio" = Some (PyStr (py "123456")))
  ∧ (∀ body log,
       attributes_of
         (extract_attributes_from_email_body
            (py "Su boleta electrónica FOLIO 00123456 ya está disponible") body log)
         !! "folio" = Some (PyStr (py "00123456")))
  ∧ (∀ body log,
       attributes_of
         (extract_attributes_from_email_body (py "Factura 111111, folio 222222") body log)
         !! "folio" = Some (PyStr (py "222222")))
  ∧ (∀ body log,
       attributes_of
         (extract_attributes_from_email_body (py "Aviso de vencimiento 12345") body log)
         !! "folio" = None).
Proof.
  split; [|split; [exact folio_value|]].
  - intros subject body log.
    rewrite attributes_of_eq, extracted_subject_keys, _extract_from_subject_lookup by by left.
    by repeat case_decide.
  - repeat split; intros body log;
      rewrite attributes_of_eq, extracted_subject_keys by (by left);
      by vm_compute.
Qed.

(** C8.  For every subject and body, no key of the map returned by
    [extract_attributes_from_email_body] is mapped to an empty string (or to
    [None]): every value present is a string that is not empty, so a field
    that was not found shows only by the absence of its key. *)
Theorem C8_values_nonempty subject body log key v :
  attributes_of (extract_attributes_from_email_body subject body log) !! key = Some v →
  found v.
Proof.
  rewrite attributes_of_eq, extracted_lookup. simpl.
  repeat case_decide.
  - destruct (truthy (address_of _)) eqn:E; [|done]. intros [= <-]. by apply truthy_found.
  - destruct (truthy (customer_of _)) eqn:E; [|done]. intros [= <-]. by apply truthy_found.
  - destruct (truthy (_extract_total_amount _)) eqn:E; [|done]. intros [= <-].
    by apply truthy_found.
  - destruct (dates_of _ !! key) as [d|] eqn:E.
    + intros [= <-]. by eapply dates_of_found.
    + apply _extract_from_subject_found.
Qed.

Lemma C8_values_nonempty_witness :
  attributes_of (extract_attributes_from_email_body (py "Folio: 123456") (py "Sin datos") [])
    !! "folio" = Some (PyStr (py "123456"))
  ∧ found (PyStr (py "123456")).
Proof.
  assert (H : attributes_of
                (extract_attributes_from_email_body (py "Folio: 123456") (py "Sin datos") [])
                !! "folio" = Some (PyStr (py "123456"))) by (vm_compute; reflexivity).
  split; [exact H|exact (C8_values_nonempty _ _ _ _ _ H)].
Defined.

(** C9.  [extract_attributes_from_email_body] is deterministic and
    stateless: its result depends on the subject and the body only, whatever
    the calls made before have left behind; a call leaves nothing behind;
    and so a call made after another gives what it gives alone. *)
Theorem C9_deterministic_stateless subject body subject' body' log log' :
  (extract_attributes_from_email_body subject body log).1
    = (extract_attributes_from_email_body subject body log').1
  ∧ (extract_attributes_from_email_body subject body log).2 = log
  ∧ (extract_attributes_from_email_body subject' body'
       (extract_attributes_from_email_body subject body log).2).1
    = (extract_attributes_from_email_body subject' body' log').1.
Proof. by rewrite !extract_attributes_from_email_body_eq. Qed.

(** C10.  For every subject and body, if the map returned by
    [extract_attributes_from_email_body] has the key [billing_period_end]
    then it has the key [billing_period_start]. *)
Theorem C10_end_implies_start subject body log :
  is_Some (attributes_of (extract_attributes_from_email_body subject body log)
             !! "billing_period_end") →
  is_Some (attributes_of (extract_attributes_from_email_body subject body log)
             !! "billing_period_start").
Proof.
  rewrite attributes_of_eq, !extracted_lookup. simpl.
  rewrite !dates_of_lookup, !_extract_from_subject_keys by done.
  repeat (case_decide; try done).
  destruct (occurrence DATE_PATTERNS (combine subject body) 1) as [m1|] eqn:E1;
    [|by intros [??]].
  intros _.
  destruct (occurrence_rank DATE_PATTERNS (combine subject body) 0 1) as [m0 ->];
    [lia|by rewrite E1|]. by eexists.
Qed.

Lemma C10_end_implies_start_witness :
  is_Some (attributes_of
             (extract_attributes_from_email_body (py "Cuenta")
                (py "Periodo 01/03/2024 al 31/03/2024") [])
             !! "billing_period_end")
  ∧ is_Some (attributes_of
               (extract_attributes_from_email_body (py "Cuenta")
                  (py "Periodo 01/03/2024 al 31/03/2024") [])
               !! "billing_period_start").
Proof.
  assert (H : is_Some (attributes_of
                (extract_attributes_from_email_body (py "Cuenta")
                   (py "Periodo 01/03/2024 al 31/03/2024") [])
                !! "billing_period_end")) by (vm_compute; eexists; reflexivity).
  split; [exact H|exact (C10_end_implies_start _ _ _ H)].
Defined.

(** ** Further properties *)

(** X1.  The keys of the returned map belong to the seven field names. *)
Theorem keys_closed subject body log :
  dom (attributes_of (extract_attributes_from_email_body subject body log)) ⊆ FIELDS.
Proof.
  rewrite attributes_of_eq. intros key [v Hv]%elem_of_dom.
  rewrite extracted_lookup in Hv. simpl in Hv. unfold FIELDS.
  repeat case_decide; subst; try set_solver.
  rewrite dates_of_lookup, _extract_from_subject_lookup in Hv.
  repeat case_decide; subst; try set_solver.
Qed.

(** X2.  The tax identifier is group 1 of the first match of its pattern in the
    subject, and is absent when the pattern does not match; a subject with
    [12.345.678-9] gives it. *)
Theorem rut_from_subject_first_match :
  (∀ subject body log,
     attributes_of (extract_attributes_from_email_body subject body log)
       !! "rut_from_subject"
     = (fun m => group_val m 1) <$> re_search rut_pattern subject)
  ∧ (∀ body log,
       attributes_of
         (extract_attributes_from_email_body (py "Boleta RUT 12.345.678-9 marzo") body log)
         !! "rut_from_subject" = Some (PyStr (py "12.345.678-9"))).
Proof.
  split.
  - intros subject body log.
    rewrite attributes_of_eq, extracted_subject_keys, _extract_from_subject_lookup
      by by right.
    by rewrite decide_True.
  - intros body log. rewrite attributes_of_eq, extracted_subject_keys by (by right).
    by vm_compute.
Qed.

(** X3.  The customer number is that of the first customer label, from left to
    right, that has a run of a digit and up to 19 digits, dots or dashes in
    the 80 characters after it, as it stands in the text; the body [Número
    de cuenta: 123-456789] gives [123-456789].  The search of a label stops
    80 characters after it: a number that begins at the 80th character
    gives its first digit only, one that begins later gives nothing, and a
    label without a number leaves the turn to the next one. *)
Theorem customer_number_first_label :
  (∀ text,
     _extract_customer_number text =
       Returns (of_option (head (omap (customer_candidate text)
                                   (re_finditer _CUSTOMER_LABELS text)))))
  ∧ (∀ log,
       attributes_of
         (extract_attributes_from_email_body (py "")
            (py "Número de cuenta: 123-456789") log)
         !! "customer_number" = Some (PyStr (py "123-456789")))
  ∧ (∀ text label_match,
       label_match ∈ re_finditer _CUSTOMER_LABELS text →
       ∃ pre label post,
         text = pre ++ label ++ post ∧
         lang IGNORECASE (p_re _CUSTOMER_LABELS) label ∧
         m_end label_match = len (pre ++ label) ∧
         customer_candidate text label_match =
           (num_match ← re_search customer_digits (take 80 post); group num_match 1))
  ∧ (∀ log,
       attributes_of
         (extract_attributes_from_email_body (py "")
            (py "Cliente N°: " ++ equals_signs 79 ++ py "123") log)
         !! "customer_number" = Some (PyStr (py "1"))
       ∧ attributes_of
           (extract_attributes_from_email_body (py "")
              (py "Cliente N°: " ++ equals_signs 80 ++ py "123") log)
           !! "customer_number" = None
       ∧ attributes_of
           (extract_attributes_from_email_body (py "")
              (py "Cliente N°: sin datos. " ++ equals_signs 80
                 ++ py " Número de cuenta: 123-456") log)
           !! "customer_number" = Some (PyStr (py "123-456"))).
Proof.
  split; [|split; [|split]].
  - intros text. apply customer_loop_head.
  - intros log. rewrite attributes_of_eq. by vm_compute.
  - intros text lm Hlm.
    pose proof (re_finditer_occurs _CUSTOMER_LABELS text) as Hocc.
    rewrite Forall_forall in Hocc.
    destruct (Hocc _ Hlm) as (pre & label & post & Htext & _ & Hend & Hlabel & Hpost).
    exists pre, label, post. unfold customer_candidate. rewrite Hpost.
    repeat split; done.
  - intros log. rewrite !attributes_of_eq. repeat split; by vm_compute.
Qed.


(** ** The groups hold pieces of the text *)

Lemma substring_refl v : substring v v.
Proof. exists [], []. by rewrite app_nil_r. Qed.

Lemma substring_app v u a b : substring v u → substring v (a ++ u ++ b).
Proof.
  intros (a' & b' & ->). exists (a ++ a'), (b' ++ b). by rewrite <- !app_assoc.
Qed.

Lemma substring_app_l v u b : substring v u → substring v (u ++ b).
Proof. intros H. by apply (substring_app v u [] b). Qed.

Lemma substring_app_r v u a : substring v u → substring v (a ++ u).
Proof. intros H. rewrite <- (app_nil_r u). by apply substring_app. Qed.

Lemma substring_trans v u s : substring v u → substring u s → substring v s.
Proof. intros Hv (a & b & ->). by apply substring_app. Qed.

Lemma substring_take n s : substring (take n s) s.
Proof. rewrite <- (take_drop n s) at 2. apply substring_app_l, substring_refl. Qed.

Lemma substring_drop n s : substring (drop n s) s.
Proof. rewrite <- (take_drop n s) at 2. apply substring_app_r, substring_refl. Qed.

Section Captures.
Context {R : Type}.
Variable f : flags.

Section Loop.
Variable body : N → str → groups → (N → str → groups → option R) → option R.
Hypothesis body_captures : captures_in body.

Lemma rep_more_captures k fl n pos s c res :
  rep_more body k fl n pos s c = Some res →
  ∃ w s' c',
    s = w ++ s' ∧
    (∀ i v, c' !! i = Some v → c !! i = Some v ∨ substring v w) ∧
    k (pos + len w) s' c' = Some res.
Proof.
  revert n pos s c. induction fl as [|x fl IH]; intros n pos s c H.
  - exists [], s, c. simpl in *. rewrite N.add_0_r. repeat split; auto.
  - assert (Hstop : k pos s c = Some res →
      ∃ w s' c', s = w ++ s' ∧
        (∀ i v, c' !! i = Some v → c !! i = Some v ∨ substring v w) ∧
        k (pos + len w) s' c' = Some res).
    { intros Hk. exists [], s, c. simpl. rewrite N.add_0_r. repeat split; auto. }
    assert (Hgo :
      match body pos s c (fun p' s' c' =>
              if pos <? p' then rep_more body k fl (pred <$> n) p' s' c' else None)
      with Some x => Some x | None => k pos s c end = Some res →
      ∃ w s' c', s = w ++ s' ∧
        (∀ i v, c' !! i = Some v → c !! i = Some v ∨ substring v w) ∧
        k (pos + len w) s' c' = Some res).
    { intros Hm.
      destruct (body pos s c _) as [x0|] eqn:Hb; [|by apply Hstop].
      injection Hm as ->.
      destruct (body_captures _ _ _ _ _ Hb) as (w & s1 & c1 & -> & Hc1 & Hk).
      destruct (pos <? pos + len w); [|done].
      destruct (IH _ _ _ _ Hk) as (w2 & s2 & c2 & -> & Hc2 & Hk2).
      exists (w ++ w2), s2, c2. rewrite len_app, N.add_assoc, <- app_assoc.
      repeat split; auto. intros i v Hv.
      destruct (Hc2 _ _ Hv) as [Hv1|Hv2]; [|right; by apply substring_app_r].
      destruct (Hc1 _ _ Hv1) as [?|?]; [by left|right; by apply substring_app_l]. }
    simpl in H. destruct n as [[|h]|]; [by apply Hstop| |]; by apply Hgo.
Qed.

Lemma rep_must_captures k m n pos s c res :
  rep_must body k m n pos s c = Some res →
  ∃ w s' c',
    s = w ++ s' ∧
    (∀ i v, c' !! i = Some v → c !! i = Some v ∨ substring v w) ∧
    k (pos + len w) s' c' = Some res.
Proof.
  revert pos s c. induction m as [|m IH]; intros pos s c H; simpl in H.
  - by apply rep_more_captures in H.
  - destruct (body_captures _ _ _ _ _ H) as (w & s1 & c1 & -> & Hc1 & Hk).
    destruct (IH _ _ _ Hk) as (w2 & s2 & c2 & -> & Hc2 & Hk2).
    exists (w ++ w2), s2, c2. rewrite len_app, N.add_assoc, <- app_assoc.
    repeat split; auto. intros i v Hv.
    destruct (Hc2 _ _ Hv) as [Hv1|Hv2]; [|right; by apply substring_app_r].
    destruct (Hc1 _ _ Hv1) as [?|?]; [by left|right; by apply substring_app_l].
Qed.
End Loop.

Lemma mtch_captures r : captures_in (R:=R) (mtch f r).
Proof.
  induction r as [|neg items|r1 IH1 r2 IH2|r1 IH1 r2 IH2|r1 IH1 lo hi|i r1 IH1];
    intros pos s c k res H; simpl in H.
  - exists [], s, c. rewrite len_nil, N.add_0_r. repeat split; auto.
  - destruct s as [|t s']; [done|].
    destruct (chr_in f neg items t) eqn:Ht; [|done].
    exists [t], s', c. rewrite len_cons, len_nil.
    replace (pos + N.succ 0) with (N.succ pos) by lia. repeat split; auto.
  - destruct (IH1 _ _ _ _ _ H) as (u & s1 & c1 & -> & Hc1 & Hk1).
    destruct (IH2 _ _ _ _ _ Hk1) as (v & s2 & c2 & -> & Hc2 & Hk2).
    exists (u ++ v), s2, c2. rewrite len_app, N.add_assoc, <- app_assoc.
    repeat split; auto. intros i w Hw.
    destruct (Hc2 _ _ Hw) as [Hv1|Hv2]; [|right; by apply substring_app_r].
    destruct (Hc1 _ _ Hv1) as [?|?]; [by left|right; by apply substring_app_l].
  - destruct (mtch f r1 pos s c k) as [x|] eqn:H1.
    + injection H as ->. by apply IH1.
    + by apply IH2.
  - by apply (rep_must_captures _ IH1) in H.
  - destruct (IH1 _ _ _ _ _ H) as (u & s1 & c1 & -> & Hc1 & Hk1).
    rewrite take_len_app in Hk1.
    exists u, s1, (<[i := u]> c1). repeat split; auto.
    intros j v. rewrite lookup_insert. case_decide.
    + intros [= <-]. right. apply substring_refl.
    + apply Hc1.
Qed.
End Captures.

Lemma match_at_groups p pos s m i v :
  match_at p pos s = Some m → group m i = Some v → substring v s.
Proof.
  unfold match_at. intros H Hv.
  destruct (mtch_captures _ _ _ _ _ _ _ H) as (w & s' & c' & -> & Hc & [= <-]).
  destruct (Hc _ _ Hv) as [Hv'|Hv']; [by rewrite lookup_empty in Hv'|].
  by apply substring_app_l.
Qed.

Lemma search_from_groups p pos s m i v :
  search_from p pos s = Some m → group m i = Some v → substring v s.
Proof.
  intros (pre & s1 & -> & H & _)%search_from_inv Hv.
  apply substring_app_r. by eapply match_at_groups.
Qed.

Lemma re_search_groups p text m i v :
  re_search p text = Some m → group m i = Some v → substring v text.
Proof. apply search_from_groups. Qed.

Lemma finditer_from_groups p fuel pos s :
  Forall (fun m => ∀ i v, group m i = Some v → substring v s)
    (finditer_from fuel p pos s).
Proof.
  revert pos s. induction fuel as [|fuel IH]; intros pos s; simpl; [done|].
  destruct (search_from p pos s) as [m|] eqn:E; [|done].
  constructor; [intros i v; by eapply search_from_groups|].
  assert (Hsub : ∀ n (ms : list Match),
            Forall (fun m => ∀ i v, group m i = Some v → substring v (drop n s)) ms →
            Forall (fun m => ∀ i v, group m i = Some v → substring v s) ms).
  { intros n ms Hms. eapply Forall_impl; [exact Hms|]. intros m' Hm' i v Hv.
    cbv beta in Hm'.
    eapply substring_trans; [by eapply Hm'|apply substring_drop]. }
  destruct (m_start m <? m_end m); [by eapply Hsub|].
  destruct (drop _ s) as [|t s2] eqn:Ed; [done|].
  apply (Hsub (S (N.to_nat (m_end m - pos)))).
  replace (drop (S (N.to_nat (m_end m - pos))) s) with s2; [apply IH|].
  replace (S (N.to_nat (m_end m - pos))) with (N.to_nat (m_end m - pos) + 1)%nat by lia.
  by rewrite <- drop_drop, Ed.
Qed.

Lemma re_finditer_groups p text :
  Forall (fun m => ∀ i v, group m i = Some v → substring v text) (re_finditer p text).
Proof. apply finditer_from_groups. Qed.

(** ** Characters and lengths of the words of a pattern *)

Lemma lang_charsets f r w :
  lang f r w →
  Forall (fun t => ∃ cs, cs ∈ charsets r ∧ chr_in f cs.1 cs.2 t = true) w.
Proof.
  revert w.
  induction r as [|neg items|r1 IH1 r2 IH2|r1 IH1 r2 IH2|r1 IH1 lo hi|i r1 IH1];
    intros w; simpl.
  - by intros ->.
  - intros (t & -> & Ht). repeat constructor. exists (neg, items).
    split; [set_solver|done].
  - intros (u & v & -> & Hu & Hv). apply Forall_app. split.
    + eapply Forall_impl; [by apply IH1|]. intros t (cs & ? & ?). exists cs.
      split; [set_solver|done].
    + eapply Forall_impl; [by apply IH2|]. intros t (cs & ? & ?). exists cs.
      split; [set_solver|done].
  - intros [H|H].
    + eapply Forall_impl; [by apply IH1|]. intros t (cs & ? & ?). exists cs.
      split; [set_solver|done].
    + eapply Forall_impl; [by apply IH2|]. intros t (cs & ? & ?). exists cs.
      split; [set_solver|done].
  - intros (ws & -> & Hws & _). induction Hws as [|w ws Hw _ IH]; [done|].
    simpl. apply Forall_app. split; [by apply IH1|done].
  - apply IH1.
Qed.

Lemma lang_min_len f r w : lang f r w → (min_len r ≤ length w)%nat.
Proof.
  revert w.
  induction r as [|neg items|r1 IH1 r2 IH2|r1 IH1 r2 IH2|r1 IH1 lo hi|i r1 IH1];
    intros w; simpl.
  - by intros ->.
  - by intros (t & -> & _).
  - intros (u & v & -> & Hu%IH1 & Hv%IH2). rewrite length_app. lia.
  - intros [H%IH1|H%IH2]; lia.
  - intros (ws & -> & Hws & Hlo & _).
    assert (H : (length ws * min_len r1 ≤ length (concat ws))%nat).
    { clear Hlo. induction Hws as [|w ws Hw%IH1 _ IH]; [done|].
      simpl. rewrite length_app. lia. }
    nia.
  - apply IH1.
Qed.

Lemma lang_max_len f r w n : max_len r = Some n → lang f r w → (length w ≤ n)%nat.
Proof.
  revert w n.
  induction r as [|neg items|r1 IH1 r2 IH2|r1 IH1 r2 IH2|r1 IH1 lo hi|i r1 IH1];
    intros w n; simpl.
  - by intros [= <-] ->.
  - by intros [= <-] (t & -> & _).
  - destruct (max_len r1) as [a|]; [|done]. destruct (max_len r2) as [b|]; [|done].
    simpl. intros [= <-] (u & v & -> & Hu & Hv). rewrite length_app.
    specialize (IH1 _ _ eq_refl Hu). specialize (IH2 _ _ eq_refl Hv). lia.
  - destruct (max_len r1) as [a|]; [|done]. destruct (max_len r2) as [b|]; [|done].
    simpl. intros [= <-] [H|H];
      [specialize (IH1 _ _ eq_refl H)|specialize (IH2 _ _ eq_refl H)]; lia.
  - destruct (max_len r1) as [a|]; [|done]. destruct hi as [h|]; [|done].
    simpl. intros [= <-] (ws & -> & Hws & _ & Hhi).
    assert (H : (length (concat ws) ≤ length ws * a)%nat).
    { clear Hhi. induction Hws as [|w ws Hw _ IH]; [done|].
      simpl. rewrite length_app. specialize (IH1 _ _ eq_refl Hw). lia. }
    nia.
  - apply IH1.
Qed.

Lemma tolower_low t : unicode_tolower t < 65 → unicode_tolower t = t.
Proof. unfold unicode_tolower. case_ifs; bool_hyps; try done; lia. Qed.

(** Under [IGNORECASE] a character below the letters still matches only
    itself. *)
Lemma lit_low f c t : c < 65 → item_in f t (CLit c) = true → t = c.
Proof.
  intros Hc. destruct f; simpl; [by intros ?%N.eqb_eq|].
  unfold lit_ci.
  assert (E : unicode_tolower c = c)
    by (unfold unicode_tolower; case_ifs; bool_hyps; try done; lia).
  assert (F : ignorecase_fixes c = [])
    by (unfold ignorecase_fixes; case_ifs; bool_hyps; try done; lia).
  rewrite E, F. simpl. rewrite orb_false_r. intros H%N.eqb_eq.
  rewrite <- H. symmetry. apply tolower_low. lia.
Qed.

Lemma amount_number_chars w : lang IGNORECASE amount_number w → Forall amount_char w.
Proof.
  intros H%lang_charsets. eapply Forall_impl; [exact H|].
  intros t (cs & Hcs & Ht). cbv beta in *.
  assert (Hcase : cs = (false, [CRange 48 57]) ∨ cs = (false, [CLit 46; CLit 44])).
  { revert Hcs. change (charsets amount_number) with
      [(false, [CRange 48 57]); (false, [CLit 46; CLit 44]); (false, [CRange 48 57]);
       (false, [CLit 46; CLit 44]); (false, [CRange 48 57])].
    rewrite !elem_of_cons, elem_of_nil. tauto. }
  destruct Hcase as [-> | ->]; cbn [fst snd] in Ht.
  - left. by eapply digit_is_digit.
  - right. unfold chr_in in Ht. cbn [xorb existsb] in Ht. rewrite orb_false_r in Ht.
    apply orb_prop in Ht as [Ht|Ht]; apply lit_low in Ht; auto; lia.
Qed.

Lemma amount_number_ends w :
  lang IGNORECASE amount_number w → begins_with_digit w ∧ ends_with_digit w.
Proof.
  intros H. destruct (amount_number_solid _ H) as [Hne _].
  split.
  - destruct w as [|t w']; [done|]. exists t, w'. split; [done|].
    destruct (firsts_sound _ _ _ _ H) as (cs & Hcs & Ht).
    change (firsts amount_number) with [(false, [CRange 48 57])] in Hcs.
    apply list_elem_of_singleton in Hcs as ->. by eapply digit_is_digit.
  - destruct w as [|t w' _] using rev_ind; [done|]. exists w', t. split; [done|].
    destruct (lasts_sound _ _ _ _ H) as (cs & Hcs & Ht).
    change (lasts amount_number) with
      [(false, [CRange 48 57]); (false, [CRange 48 57]); (false, [CRange 48 57])] in Hcs.
    assert (cs = (false, [CRange 48 57])) as ->
      by (revert Hcs; rewrite !elem_of_cons, elem_of_nil; tauto).
    by eapply digit_is_digit.
Qed.

(** ** Where each value of the result comes from *)

Lemma head_omap_Some {A B : Type} (g : A → option B) (l : list A) (y : B) :
  head (omap g l) = Some y → ∃ x, x ∈ l ∧ g x = Some y.
Proof.
  induction l as [|x l IH]; [done|]. simpl.
  destruct (g x) as [y'|] eqn:E.
  - intros [= <-]. exists x. split; [left|done].
  - intros (x' & ? & ?)%IH. exists x'. split; [by right|done].
Qed.

Lemma window_substring text lm : substring (window text lm) text.
Proof.
  unfold window, slice_to, slice_from.
  eapply substring_trans; [apply substring_take|apply substring_drop].
Qed.

(** The total is the number of an amount match found in a piece of the
    text. *)
Lemma total_amount_source text v :
  _extract_total_amount text = v → truthy v = true →
  ∃ am src, v = PyStr (amount_token am) ∧ re_search _AMOUNT_RE src = Some am ∧
            substring src text.
Proof.
  rewrite _extract_total_amount_eq. unfold labelled_amount.
  destruct (head _) as [am|] eqn:E.
  - intros <- _. apply head_omap_Some in E as (lm & _ & E).
    exists am, (window text lm). split; [done|]. split; [done|].
    apply window_substring.
  - destruct (re_search _AMOUNT_RE text) as [am|] eqn:E'; [|by intros <-].
    intros <- _. exists am, text. split; [done|]. split; [done|].
    apply substring_refl.
Qed.

Lemma amount_token_group am :
  matched _AMOUNT_RE am → ∃ i, group am i = Some (amount_token am).
Proof.
  intros Hm. unfold amount_token. destruct (group am 1) as [v|] eqn:E1.
  - by exists 1%nat.
  - destruct (amount_some_group _ Hm) as [[v Hv]|[v Hv]]; [congruence|].
    exists 2%nat. by rewrite Hv.
Qed.

Lemma attr_total subject body log v :
  attributes_of (extract_attributes_from_email_body subject body log) !! "total_amount"
    = Some v →
  ∃ am src, v = PyStr (amount_token am) ∧ re_search _AMOUNT_RE src = Some am ∧
            substring src (capped subject body).
Proof.
  rewrite attributes_of_eq, extracted_lookup. simpl. rewrite combine_capped.
  repeat case_decide; try done.
  destruct (truthy _) eqn:E; [|done]. intros [= <-].
  by eapply total_amount_source.
Qed.

(** The customer number is group 1 of a match of the number pattern in a
    piece of the text. *)
Lemma attr_customer subject body log v :
  attributes_of (extract_attributes_from_email_body subject body log) !! "customer_number"
    = Some v →
  ∃ nm src w, v = PyStr w ∧ group nm 1 = Some w ∧
              re_search customer_digits src = Some nm ∧
              substring src (capped subject body).
Proof.
  rewrite attributes_of_eq, extracted_lookup. simpl. rewrite combine_capped.
  repeat case_decide; try done.
  destruct (truthy _) eqn:E; [|done]. intros [= <-].
  unfold customer_of, _extract_customer_number in *.
  rewrite customer_loop_head in *. simpl in *.
  destruct (head _) as [w|] eqn:Eh; [|done].
  apply head_omap_Some in Eh as (lm & _ & Eh). unfold customer_candidate in Eh.
  destruct (re_search customer_digits _) as [nm|] eqn:En; [|done]. simpl in Eh.
  exists nm, (slice_to 80 (slice_from (m_end lm) (capped subject body))), w.
  repeat split; try done.
  eapply substring_trans; [apply substring_take|apply substring_drop].
Qed.

(** A billing date is group 1 of an occurrence of one of the date
    patterns in the text. *)
Lemma attr_date subject body log key v :
  key = "billing_period_start" ∨ key = "billing_period_end" →
  attributes_of (extract_attributes_from_email_body subject body log) !! key = Some v →
  ∃ pat m w, pat ∈ DATE_PATTERNS ∧
             m ∈ re_finditer (Pattern pat IGNORECASE) (capped subject body) ∧
             group m 1 = Some w ∧ v = PyStr w.
Proof.
  intros Hk. rewrite attributes_of_eq, extracted_lookup. cbv zeta.
  rewrite combine_capped, dates_of_lookup.
  assert (H : ∀ i o, occurrence DATE_PATTERNS (capped subject body) i = o →
                date_value <$> o = Some v →
                ∃ pat m w, pat ∈ DATE_PATTERNS ∧
                  m ∈ re_finditer (Pattern pat IGNORECASE) (capped subject body) ∧
                  group m 1 = Some w ∧ v = PyStr w).
  { intros i [m|] Ho; [|done]. intros [= <-].
    destruct (date_value_solid _ _ _ _ DATE_PATTERNS_ok Ho) as (w & Hw & Hv & _).
    apply head_omap_Some in Ho as (pat & Hpat & Hm).
    exists pat, m, w. repeat split; try done. by eapply list_elem_of_lookup_2. }
  destruct Hk as [-> | ->]; repeat case_decide; try done.
  - destruct (occurrence _ _ 0) as [m|] eqn:Ho.
    + by apply (H 0%nat (Some m)).
    + simpl. by rewrite _extract_from_subject_lookup.
  - destruct (occurrence _ _ 1) as [m|] eqn:Ho.
    + by apply (H 1%nat (Some m)).
    + simpl. by rewrite _extract_from_subject_lookup.
Qed.

(** The folio and the tax ID are group 1 of a match in the subject. *)
Lemma attr_subject subject body log key v :
  key = "folio" ∨ key = "rut_from_subject" →
  attributes_of (extract_attributes_from_email_body subject body log) !! key = Some v →
  ∃ p m w, re_search p subject = Some m ∧ group m 1 = Some w ∧ v = PyStr w ∧
           (key = "folio" → ∃ pat, pat ∈ folio_patterns ∧ p = Pattern pat IGNORECASE) ∧
           (key = "rut_from_subject" → p = rut_pattern).
Proof.
  intros Hk. rewrite attributes_of_eq, extracted_subject_keys by done.
  intros Hv. destruct (_extract_from_subject_found _ _ _ Hv) as (w & -> & _).
  revert Hv. rewrite _extract_from_subject_lookup.
  destruct Hk as [-> | ->]; repeat case_decide; try done.
  - destruct (list_find _ _) as [[n pat]|] eqn:Ef; [|done].
    apply list_find_Some in Ef as (Hn & _ & _).
    destruct (re_search _ subject) as [m|] eqn:Em; [|done]. simpl.
    unfold group_val. destruct (group m 1) as [w'|] eqn:Eg; [|done]. intros [= ->].
    exists (Pattern pat IGNORECASE), m, w. repeat split; try done.
    intros _. exists pat. split; [by eapply list_elem_of_lookup_2|done].
  - destruct (re_search _ subject) as [m|] eqn:Em; [|done]. simpl.
    unfold group_val. destruct (group m 1) as [w'|] eqn:Eg; [|done]. intros [= ->].
    exists rut_pattern, m, w. repeat split; done.
Qed.

Lemma attr_cases subject body log key v :
  attributes_of (extract_attributes_from_email_body subject body log) !! key = Some v →
  key = "address" ∨ key = "customer_number" ∨ key = "total_amount" ∨
  key = "billing_period_start" ∨ key = "billing_period_end" ∨
  key = "folio" ∨ key = "rut_from_subject".
Proof.
  rewrite attributes_of_eq, extracted_lookup. cbv zeta. intros Hv.
  repeat case_decide; subst; auto.
  rewrite dates_of_lookup, _extract_from_subject_lookup in Hv.
  repeat case_decide; subst; auto 10. done.
Qed.

(** ** The shape of the values *)

Lemma customer_digits_word nm w :
  matched customer_digits nm → group nm 1 = Some w →
  (1 ≤ length w ≤ 20)%nat ∧ Forall number_char w ∧ begins_with_digit w.
Proof.
  intros Hm Hw. destruct (matched_group_body _ _ _ _ Hm Hw) as (g & Hg & Hl).
  apply list_elem_of_singleton in Hg as ->.
  split; [|split].
  - split.
    + apply lang_min_len in Hl. exact Hl.
    + apply (lang_max_len _ _ _ 20) in Hl; [exact Hl|reflexivity].
  - apply lang_charsets in Hl. eapply Forall_impl; [exact Hl|].
    intros t (cs & Hcs & Ht). cbv beta in *. revert Hcs.
    change (charsets _) with
      [(false, [CRange 48 57]); (false, [CRange 48 57; CLit 46; CLit 45])].
    rewrite !elem_of_cons, elem_of_nil. unfold number_char, is_digit.
    intros [-> | [-> | []]]; cbn in Ht; rewrite ?orb_false_r in Ht;
      repeat (apply orb_prop in Ht as [Ht|Ht]); bool_hyps; lia.
  - destruct w as [|t w']; [apply lang_min_len in Hl; simpl in Hl; lia|].
    exists t, w'. split; [done|].
    destruct (firsts_sound _ _ _ _ Hl) as (cs & Hcs & Ht).
    apply list_elem_of_singleton in Hcs as ->. by eapply digit_is_digit.
Qed.

Lemma date_bodies :
  Forall (fun r => ∀ g, g ∈ group_bodies r →
            (6 ≤ min_len g)%nat ∧ ∀ cs, cs ∈ lasts g → cs = (false, [CRange 48 57]))
    DATE_PATTERNS.
Proof.
  repeat constructor; apply list_elem_of_singleton in H as ->;
    try (vm_compute; lia);
    intros cs Hcs; by apply list_elem_of_singleton in Hcs.
Qed.

Lemma date_word pat text m w :
  pat ∈ DATE_PATTERNS → m ∈ re_finditer (Pattern pat IGNORECASE) text →
  group m 1 = Some w → (6 ≤ length w)%nat ∧ ends_with_digit w.
Proof.
  intros Hpat Hm Hw.
  pose proof (re_finditer_matched (Pattern pat IGNORECASE) text) as Hms.
  rewrite Forall_forall in Hms. apply Hms in Hm.
  destruct (matched_group_body _ _ _ _ Hm Hw) as (g & Hg & Hl).
  pose proof date_bodies as Hb. rewrite Forall_forall in Hb.
  destruct (Hb _ Hpat _ Hg) as [Hmin Hlast].
  apply lang_min_len in Hl as Hlen. split; [lia|].
  destruct w as [|t w' _] using rev_ind; [simpl in Hlen; lia|].
  exists w', t. split; [done|].
  destruct (lasts_sound _ _ _ _ Hl) as (cs & Hcs & Ht).
  apply Hlast in Hcs as ->. by eapply digit_is_digit.
Qed.

Lemma rut_word m w :
  matched rut_pattern m → group m 1 = Some w → begins_with_digit w.
Proof.
  intros Hm Hw. destruct (matched_group_body _ _ _ _ Hm Hw) as (g & Hg & Hl).
  apply list_elem_of_singleton in Hg as ->.
  destruct w as [|t w']; [apply lang_min_len in Hl; vm_compute in Hl; lia|].
  exists t, w'. split; [done|].
  destruct (firsts_sound _ _ _ _ Hl) as (cs & Hcs & Ht).
  apply list_elem_of_singleton in Hcs as ->. by eapply digit_is_digit.
Qed.

Lemma begins_has_digit w : begins_with_digit w → Exists is_digit w.
Proof. intros (t & w' & -> & Ht). by left. Qed.

Lemma ends_has_digit w : ends_with_digit w → Exists is_digit w.
Proof. intros (w' & t & -> & Ht). apply Exists_app. right. by left. Qed.

Lemma substring_Exists (P : N → Prop) v s : substring v s → Exists P v → Exists P s.
Proof. intros (a & b & ->) H. rewrite !Exists_app. auto. Qed.

Lemma capped_substring subject body :
  substring (capped subject body) (subject ++ [LF; LF] ++ body).
Proof. apply substring_take. Qed.

(** X4.  The total amount holds digits, dots and commas only, and begins and
    ends with a digit: the currency sign, the currency name and the white
    space around the number never enter the value. *)
Theorem total_amount_shape subject body log v :
  attributes_of (extract_attributes_from_email_body subject body log) !! "total_amount"
    = Some v →
  ∃ w, v = PyStr w ∧ Forall amount_char w ∧ begins_with_digit w ∧ ends_with_digit w.
Proof.
  intros (am & src & -> & Hs%re_search_matched & _)%attr_total.
  destruct (amount_raw_token _ Hs) as (_ & Hl & _).
  exists (amount_token am). split; [done|]. split; [by apply amount_number_chars|].
  by apply amount_number_ends.
Qed.

Lemma total_amount_shape_witness :
  ∃ w, PyStr (py "1.234,50") = PyStr w ∧ Forall amount_char w ∧
       begins_with_digit w ∧ ends_with_digit w.
Proof.
  apply (total_amount_shape (py "Cuenta") (py "Monto total: $ 1.234,50 pesos") []).
  vm_compute. reflexivity.
Defined.

(** X5.  The customer number has 1 to 20 characters, digits, dots and dashes
    only, the first of them a digit. *)
Theorem customer_number_shape subject body log v :
  attributes_of (extract_attributes_from_email_body subject body log) !! "customer_number"
    = Some v →
  ∃ w, v = PyStr w ∧ (1 ≤ length w ≤ 20)%nat ∧ Forall number_char w ∧
       begins_with_digit w.
Proof.
  intros (nm & src & w & -> & Hw & Hs%re_search_matched & _)%attr_customer.
  exists w. split; [done|]. by eapply customer_digits_word.
Qed.

Lemma customer_number_shape_witness :
  ∃ w, PyStr (py "123-456789") = PyStr w ∧ (1 ≤ length w ≤ 20)%nat ∧
       Forall number_char w ∧ begins_with_digit w.
Proof.
  apply (customer_number_shape (py "") (py "Número de cuenta: 123-456789") []).
  vm_compute. reflexivity.
Defined.

(** X6.  A billing date has at least six characters and ends with a digit,
    the last one of its year. *)
Theorem billing_date_shape subject body log key v :
  key = "billing_period_start" ∨ key = "billing_period_end" →
  attributes_of (extract_attributes_from_email_body subject body log) !! key = Some v →
  ∃ w, v = PyStr w ∧ (6 ≤ length w)%nat ∧ ends_with_digit w.
Proof.
  intros Hk (pat & m & w & Hpat & Hm & Hw & ->)%attr_date; [|done].
  exists w. split; [done|]. by eapply date_word.
Qed.

Lemma billing_date_shape_witness :
  ∃ w, PyStr (py "5 de marzo de 2024") = PyStr w ∧ (6 ≤ length w)%nat ∧
       ends_with_digit w.
Proof.
  apply (billing_date_shape (py "") (py "Periodo: 5 de marzo de 2024") []
           "billing_period_start").
  - by left.
  - vm_compute. reflexivity.
Defined.

(** X7.  Every value but the address stands in the input as it is: the folio
    and the tax ID are pieces of the subject, the dates, the total and the
    customer number are pieces of the capped text. *)
Theorem values_verbatim subject body log key w :
  attributes_of (extract_attributes_from_email_body subject body log) !! key
    = Some (PyStr w) →
  key ≠ "address" →
  if decide (key = "folio" ∨ key = "rut_from_subject")
  then substring w subject
  else substring w (capped subject body).
Proof.
  intros Hv Hk.
  destruct (attr_cases _ _ _ _ _ Hv) as [->|[->|[->|[->|[->|[->| ->]]]]]]; [done|..];
    (case_decide as Hd; [try by destruct Hd|try by (exfalso; apply Hd; auto)]).
  - apply attr_customer in Hv as (nm & src & w' & [= <-] & Hw & Hs & Hsrc).
    eapply substring_trans; [|exact Hsrc]. by eapply re_search_groups.
  - apply attr_total in Hv as (am & src & [= ->] & Hs & Hsrc).
    eapply substring_trans; [|exact Hsrc].
    destruct (amount_token_group am (re_search_matched _ _ _ Hs)) as [i Hi].
    by eapply re_search_groups.
  - apply attr_date in Hv as (pat & m & w' & _ & Hm & Hw & [= <-]); [|by left].
    pose proof (re_finditer_groups (Pattern pat IGNORECASE) (capped subject body)) as Hg.
    rewrite Forall_forall in Hg. by eapply Hg.
  - apply attr_date in Hv as (pat & m & w' & _ & Hm & Hw & [= <-]); [|by right].
    pose proof (re_finditer_groups (Pattern pat IGNORECASE) (capped subject body)) as Hg.
    rewrite Forall_forall in Hg. by eapply Hg.
  - apply attr_subject in Hv as (p & m & w' & Hs & Hw & [= <-] & _); [|by left].
    by eapply re_search_groups.
  - apply attr_subject in Hv as (p & m & w' & Hs & Hw & [= <-] & _); [|by right].
    by eapply re_search_groups.
Qed.

Lemma values_verbatim_witness :
  substring (py "12.500") (capped (py "Aviso") (py "Total: $12.500")).
Proof.
  apply (values_verbatim (py "Aviso") (py "Total: $12.500") [] "total_amount").
  - vm_compute. reflexivity.
  - done.
Defined.

Ltac digitless :=
  match goal with
  | |- Forall _ ?s => let l := eval vm_compute in s in change s with l
  end;
  repeat (apply Forall_cons; split; [unfold is_digit; lia|]); constructor.

(** X8.  An input without a digit gives no field but the address: every
    other value holds a digit of the input. *)
Theorem digitless_only_address subject body log key :
  Forall (fun t => ¬ is_digit t) subject → Forall (fun t => ¬ is_digit t) body →
  is_Some (attributes_of (extract_attributes_from_email_body subject body log) !! key) →
  key = "address".
Proof.
  intros Hsub Hbody [v Hv].
  assert (Hall : ∀ w, substring w (subject ++ [LF; LF] ++ body) → ¬ Exists is_digit w).
  { intros w Hw He. apply (substring_Exists _ _ _ Hw) in He.
    rewrite !Exists_app in He. destruct He as [He|[He|He]].
    - by apply (Forall_not_Exists is_digit subject).
    - apply Exists_cons in He as [He|He]; [unfold is_digit, LF in He; lia|].
      apply Exists_cons in He as [He|He]; [unfold is_digit, LF in He; lia|].
      by apply Exists_nil in He.
    - by apply (Forall_not_Exists is_digit body). }
  assert (Hcap : ∀ w, substring w (capped subject body) → ¬ Exists is_digit w).
  { intros w Hw. apply Hall. eapply substring_trans; [exact Hw|apply capped_substring]. }
  assert (Hsubj : ∀ w, substring w subject → ¬ Exists is_digit w).
  { intros w Hw. apply Hall. by apply substring_app_l. }
  destruct (attr_cases _ _ _ _ _ Hv) as [->|[->|[->|[->|[->|[->| ->]]]]]]; [done|..];
    exfalso.
  - apply attr_customer in Hv as (nm & src & w & -> & Hw & Hs & Hsrc).
    apply (Hcap w).
    + eapply substring_trans; [|exact Hsrc]. by eapply re_search_groups.
    + apply begins_has_digit.
      by apply (customer_digits_word nm w (re_search_matched _ _ _ Hs)).
  - apply attr_total in Hv as (am & src & -> & Hs & Hsrc).
    pose proof (re_search_matched _ _ _ Hs) as Hm.
    apply (Hcap (amount_token am)).
    + eapply substring_trans; [|exact Hsrc].
      destruct (amount_token_group am Hm) as [i Hi]. by eapply re_search_groups.
    + destruct (amount_raw_token _ Hm) as (_ & Hl & _).
      by apply begins_has_digit, amount_number_ends.
  - apply attr_date in Hv as (pat & m & w & Hpat & Hm & Hw & ->); [|by left].
    apply (Hcap w).
    + pose proof (re_finditer_groups (Pattern pat IGNORECASE) (capped subject body)) as Hg.
      rewrite Forall_forall in Hg. by eapply Hg.
    + by apply ends_has_digit, (date_word pat (capped subject body) m).
  - apply attr_date in Hv as (pat & m & w & Hpat & Hm & Hw & ->); [|by right].
    apply (Hcap w).
    + pose proof (re_finditer_groups (Pattern pat IGNORECASE) (capped subject body)) as Hg.
      rewrite Forall_forall in Hg. by eapply Hg.
    + by apply ends_has_digit, (date_word pat (capped subject body) m).
  - apply attr_subject in Hv as (p & m & w & Hs & Hw & -> & Hp & _); [|by left].
    destruct (Hp eq_refl) as (pat & Hpat & ->).
    destruct (folio_value _ _ _ Hpat Hs) as (w' & Hw' & Hlen & Hd).
    unfold group_val in Hw'. rewrite Hw in Hw'. injection Hw' as <-.
    apply (Hsubj w); [by eapply re_search_groups|].
    destruct w as [|t w']; [simpl in Hlen; lia|]. left. by apply Forall_cons in Hd as [? _].
  - apply attr_subject in Hv as (p & m & w & Hs & Hw & -> & _ & Hp); [|by right].
    rewrite (Hp eq_refl) in Hs.
    apply (Hsubj w); [by eapply re_search_groups|].
    apply begins_has_digit. by apply (rut_word m w (re_search_matched _ _ _ Hs)).
Qed.

Lemma digitless_only_address_witness :
  is_Some (attributes_of
             (extract_attributes_from_email_body (py "Aviso")
                (py "Domicilio: Los Olmos sin numero") []) !! "address")
  ∧ "address" = "address".
Proof.
  assert (H : is_Some (attributes_of
             (extract_attributes_from_email_body (py "Aviso")
                (py "Domicilio: Los Olmos sin numero") []) !! "address"))
    by (eexists; vm_compute; reflexivity).
  split; [exact H|].
  apply (digitless_only_address (py "Aviso") (py "Domicilio: Los Olmos sin numero") []).
  - digitless.
  - digitless.
  - exact H.
Defined.

(** ** Collapsing the white space of the address *)

Lemma space_chr t : chr_in NOFLAG false [CSpace] t = isspace t.
Proof. unfold chr_in. simpl. by rewrite orb_false_r. Qed.

Lemma match_at_spaces pos s :
  match_at spaces pos s =
    match take_while isspace s with
    | [] => None
    | run => Some {| m_start := pos; m_end := pos + len run; m_groups := ∅ |}
    end.
Proof.
  unfold match_at. cbn [spaces p_re p_flags]. unfold plus, ws, set.
  rewrite mtch_Rep. cbn [fmap option_fmap option_map].
  rewrite <- (take_while_ext _ _ s space_chr).
  destruct s as [|t s]; [done|]. cbn [take_while].
  destruct (chr_in NOFLAG false [CSpace] t) eqn:Et.
  - rewrite rep_must_chr.
    + cbn [fmap option_fmap option_map bounded take_while]. by rewrite Et.
    + by eexists.
    + cbn [take_while]. rewrite Et. simpl. lia.
  - cbn [rep_must mtch]. by rewrite Et.
Qed.

Lemma search_from_spaces pos s :
  search_from spaces pos s =
    let pre := take_while (fun t => negb (isspace t)) s in
    match drop (length pre) s with
    | [] => None
    | rest => Some {| m_start := pos + len pre;
                      m_end := pos + len pre + len (take_while isspace rest);
                      m_groups := ∅ |}
    end.
Proof.
  revert pos. induction s as [|t s IH]; intros pos; cbn [search_from].
  - by rewrite match_at_spaces.
  - rewrite match_at_spaces. cbn [take_while]. destruct (isspace t) eqn:Et.
    + cbv zeta. cbn [negb length drop take_while]. rewrite Et, len_nil, !N.add_0_r. done.
    + rewrite IH. cbv zeta. cbn [negb length drop].
      set (pre := take_while _ s). rewrite len_cons.
      destruct (drop (length pre) s); [done|]. f_equal. f_equal; cbn [take_while]; lia.
Qed.

Lemma squeeze_solid pre r :
  Forall (fun t => isspace t = false) pre →
  squeeze false (pre ++ r) = pre ++ squeeze false r.
Proof.
  induction 1 as [|t pre Ht _ IH]; [done|]. simpl. by rewrite Ht, IH.
Qed.

Lemma squeeze_skip r :
  squeeze true r = squeeze false (drop (length (take_while isspace r)) r).
Proof.
  induction r as [|x r IH]; [done|]. simpl. destruct (isspace x) eqn:E; simpl; [done|].
  by rewrite E.
Qed.

Lemma take_while_Forall (p : N → bool) s : Forall (fun t => p t = true) (take_while p s).
Proof.
  induction s as [|t s IH]; simpl; [done|]. destruct (p t) eqn:E; [|done]. by constructor.
Qed.

Lemma take_while_stop (p : N → bool) s t r :
  drop (length (take_while p s)) s = t :: r → p t = false.
Proof.
  induction s as [|x s IH]; simpl; [done|].
  destruct (p x) eqn:E; simpl; [done|]. by intros [= -> _].
Qed.

(** [re.sub(r"\s+", " ", s)] writes each white-space run of [s] as one
    space. *)
Lemma sub_spaces fuel pos s :
  (length s < fuel)%nat →
  sub_from (finditer_from fuel spaces pos s) [32] pos s = squeeze false s.
Proof.
  revert pos s. induction fuel as [|fuel IH]; intros pos s Hlen; [lia|].
  cbn [finditer_from]. rewrite search_from_spaces. cbv zeta.
  set (pre := take_while (fun t => negb (isspace t)) s).
  assert (Hpre : Forall (fun t => isspace t = false) pre).
  { eapply Forall_impl; [apply take_while_Forall|].
    intros t Ht. by apply negb_true_iff. }
  pose proof (take_while_prefix (fun t => negb (isspace t)) s) as Hs. fold pre in Hs.
  destruct (drop (length pre) s) as [|t rest'] eqn:Ed.
  - cbn [sub_from]. rewrite <- Hs at 2. rewrite squeeze_solid by done.
    simpl. by rewrite app_nil_r in Hs |- *.
  - set (rest := t :: rest') in *. set (run := take_while isspace rest).
    assert (Ht : isspace t = true).
    { apply take_while_stop in Ed. by apply negb_false_iff. }
    assert (Hrun : (1 ≤ length run)%nat).
    { unfold run, rest. cbn [take_while]. rewrite Ht. simpl. lia. }
    pose proof (take_while_prefix isspace rest) as Hr. fold run in Hr.
    set (rest2 := drop (length run) rest) in *.
    cbn [sub_from m_start m_end].
    replace (pos + len pre <? pos + len pre + len run) with true
      by (symmetry; apply N.ltb_lt; unfold len; lia).
    replace (N.to_nat (pos + len pre - pos)) with (length pre) by (unfold len; lia).
    replace (N.to_nat (pos + len pre + len run - pos)) with (length pre + length run)%nat
      by (unfold len; lia).
    assert (E2 : drop (length pre + length run) s = rest2).
    { unfold rest2. rewrite <- Ed, drop_drop. done. }
    rewrite E2.
    assert (Hlen2 : (length rest2 < fuel)%nat).
    { rewrite <- Hs, <- Hr in Hlen. rewrite !length_app in Hlen. lia. }
    rewrite IH by done.
    rewrite <- Hs at 1. rewrite take_app_length.
    rewrite <- Hs. rewrite squeeze_solid by done. f_equal.
    subst rest2 run rest. cbn [take_while squeeze]. rewrite Ht.
    cbn [length drop app]. f_equal. symmetry. apply squeeze_skip.
Qed.

Lemma re_sub_spaces s : re_sub spaces [32] s = squeeze false s.
Proof. unfold re_sub, re_finditer. apply sub_spaces. lia. Qed.

Lemma squeeze_length b s : (length (squeeze b s) ≤ length s)%nat.
Proof.
  revert b. induction s as [|t s IH]; intros b; simpl; [done|].
  pose proof (IH true). pose proof (IH false).
  destruct (isspace t); [destruct b|]; simpl; lia.
Qed.

Lemma squeeze_space b s : Forall (fun t => isspace t = true → t = 32) (squeeze b s).
Proof.
  revert b. induction s as [|t s IH]; intros b; simpl; [done|].
  destruct (isspace t) eqn:E; [destruct b|]; try apply IH.
  - constructor; [done|apply IH].
  - constructor; [|apply IH]. by rewrite E.
Qed.

Lemma squeeze_true_head s t r : squeeze true s = t :: r → isspace t = false.
Proof.
  induction s as [|x s IH]; simpl; [done|].
  destruct (isspace x) eqn:E; [done|]. by intros [= <- _].
Qed.

Lemma squeeze_single b s : single_spaced (squeeze b s).
Proof.
  intros a. revert b s. induction a as [|y a IH]; intros b s t1 t2 r.
  - revert b. induction s as [|x s IHs]; intros b; simpl; [done|].
    destruct (isspace x) eqn:E; [destruct b|].
    + apply IHs.
    + intros [= <- H] _. by eapply squeeze_true_head.
    + intros [= <- _] H. congruence.
  - revert b. induction s as [|x s IHs]; intros b; simpl; [done|].
    destruct (isspace x) eqn:E; [destruct b|].
    + apply IHs.
    + intros [= _ H]. by eapply IH.
    + intros [= _ H]. by eapply IH.
Qed.

Lemma lstrip_suffix s : ∃ a, s = a ++ lstrip s.
Proof.
  induction s as [|t s [a IH]]; [by exists []|]. simpl.
  destruct (isspace t); [|by exists []]. exists (t :: a). simpl. by f_equal.
Qed.

Lemma lstrip_head s t r : lstrip s = t :: r → isspace t = false.
Proof.
  induction s as [|x s IH]; simpl; [done|].
  destruct (isspace x) eqn:E; [done|]. by intros [= <- _].
Qed.

Lemma rstrip_prefix s : ∃ b, s = rstrip s ++ b.
Proof.
  unfold rstrip. destruct (lstrip_suffix (rev s)) as [a Ha].
  exists (rev a). rewrite <- rev_app_distr, <- Ha. by rewrite rev_involutive.
Qed.

Lemma rstrip_last s r t : rstrip s = r ++ [t] → isspace t = false.
Proof.
  unfold rstrip. intros H. apply (f_equal (@rev N)) in H.
  rewrite rev_involutive, rev_app_distr in H. simpl in H.
  by eapply lstrip_head.
Qed.

Lemma strip_substring s : substring (strip s) s.
Proof.
  unfold strip. destruct (lstrip_suffix s) as [a Ha].
  destruct (rstrip_prefix (lstrip s)) as [b Hb].
  exists a, b. by rewrite <- Hb.
Qed.

Lemma strip_trimmed s : trimmed (strip s).
Proof.
  unfold strip. split.
  - intros t w' H. destruct (rstrip_prefix (lstrip s)) as [b Hb].
    rewrite H in Hb. by eapply lstrip_head.
  - intros w' t H. by eapply rstrip_last.
Qed.

Lemma substring_single v s : substring v s → single_spaced s → single_spaced v.
Proof.
  intros (a & b & ->) H a' t1 t2 b' ->. apply (H (a ++ a') t1 t2 (b' ++ b)).
  by rewrite <- !app_assoc.
Qed.

Lemma substring_Forall (P : N → Prop) v s : substring v s → Forall P s → Forall P v.
Proof. intros (a & b & ->) H. by apply Forall_app in H as [_ [H _]%Forall_app]. Qed.

Lemma substring_length v s : substring v s → (length v ≤ length s)%nat.
Proof. intros (a & b & ->). rewrite !length_app. lia. Qed.

(** The address is what one line after an address label gives once its
    white space is collapsed and its ends are trimmed. *)
Lemma attr_address subject body log v :
  attributes_of (extract_attributes_from_email_body subject body log) !! "address" = Some v →
  ∃ rest line_match captured,
    substring rest (capped subject body) ∧
    re_search address_line rest = Some line_match ∧
    group line_match 1 = Some captured ∧
    v = PyStr (strip (squeeze false captured)).
Proof.
  rewrite attributes_of_eq, extracted_lookup. simpl. rewrite combine_capped.
  repeat case_decide; try done.
  destruct (truthy _) eqn:E; [|done]. intros [= <-].
  unfold address_of in *. rewrite _extract_address_eq in *. simpl in *.
  destruct (head _) as [w|] eqn:Eh; [|done].
  apply head_omap_Some in Eh as (lm & _ & Eh). unfold address_candidate in Eh.
  destruct (re_search address_line _) as [line_match|] eqn:El; [|done]. simpl in Eh.
  destruct (address_line_word _ _ El) as (captured & Hc & _).
  rewrite Hc in Eh. simpl in Eh. unfold address_value in Eh.
  change (py " ") with [32] in Eh. rewrite re_sub_spaces in Eh.
  exists (slice_from (m_end lm) (capped subject body)), line_match, captured.
  split; [apply substring_drop|]. split; [done|]. split; [done|].
  destruct (strip _); [done|]. by injection Eh as <-.
Qed.

(** X9.  The address is one line of 1 to 120 characters: it holds no line
    break and no white space other than single spaces, none of them at
    either end. *)
Theorem address_shape subject body log v :
  attributes_of (extract_attributes_from_email_body subject body log) !! "address" = Some v →
  ∃ w, v = PyStr w ∧ (1 ≤ length w ≤ 120)%nat ∧
       Forall (fun t => isspace t = true → t = 32) w ∧
       Forall (fun t => is_break t = false) w ∧
       single_spaced w ∧ trimmed w.
Proof.
  intros Hv. pose proof Hv as Hf. rewrite attributes_of_eq in Hf.
  apply attr_address in Hv as (rest & lm & captured & _ & Hl & Hc & ->).
  destruct (address_line_word _ _ Hl) as (c' & Hc' & [_ Hlen] & _).
  rewrite Hc in Hc'. injection Hc' as <-.
  set (w := strip (squeeze false captured)) in *.
  pose proof (strip_substring (squeeze false captured)) as Hsub. fold w in Hsub.
  assert (Hsp : Forall (fun t => isspace t = true → t = 32) w).
  { eapply substring_Forall; [exact Hsub|apply squeeze_space]. }
  exists w. split; [done|]. repeat split.
  - rewrite extracted_lookup in Hf. simpl in Hf. repeat case_decide; try done.
    destruct (truthy _) eqn:E; [|done]. injection Hf as Hf. rewrite Hf in E.
    destruct w; [done|]. simpl. lia.
  - apply substring_length in Hsub. pose proof (squeeze_length false captured). lia.
  - done.
  - eapply Forall_impl; [exact Hsp|]. intros t Ht. cbv beta in Ht. unfold is_break.
    destruct (t =? LF) eqn:E1; [apply N.eqb_eq in E1; subst; by specialize (Ht eq_refl)|].
    destruct (t =? CR) eqn:E2; [apply N.eqb_eq in E2; subst; by specialize (Ht eq_refl)|].
    done.
  - eapply substring_single; [exact Hsub|apply squeeze_single].
  - apply strip_trimmed.
  - apply strip_trimmed.
Qed.

Lemma address_shape_witness :
  ∃ w, PyStr (py "Av. Siempre Viva 742") = PyStr w ∧ (1 ≤ length w ≤ 120)%nat ∧
       Forall (fun t => isspace t = true → t = 32) w ∧
       Forall (fun t => is_break t = false) w ∧
       single_spaced w ∧ trimmed w.
Proof.
  apply (address_shape (py "") (py "Domicilio:  Av.   Siempre  Viva 742  ") []).
  vm_compute. reflexivity.
Defined.

(** X10.  The folio and the tax ID are read from the subject alone: the
    body has no part in them. *)
Theorem subject_fields_ignore_body subject body body' log log' key :
  key = "folio" ∨ key = "rut_from_subject" →
  attributes_of (extract_attributes_from_email_body subject body log) !! key =
  attributes_of (extract_attributes_from_email_body subject body' log') !! key.
Proof.
  intros Hk. by rewrite !attributes_of_eq, !extracted_subject_keys.
Qed.

Lemma subject_fields_ignore_body_witness :
  attributes_of (extract_attributes_from_email_body (py "Aviso") (py "Folio: 123456") [])
    !! "folio" =
  attributes_of (extract_attributes_from_email_body (py "Aviso") (py "") []) !! "folio".
Proof. apply subject_fields_ignore_body. by left. Defined.

(** X11.  A currency amount anywhere in the capped text is enough for a
    total: when the amount pattern matches there, [total_amount] is set. *)
Theorem total_amount_present subject body log :
  is_Some (re_search _AMOUNT_RE (capped subject body)) →
  is_Some (attributes_of (extract_attributes_from_email_body subject body log)
             !! "total_amount").
Proof.
  intros [am Ham]. rewrite attributes_of_eq, extracted_lookup. cbv zeta.
  rewrite combine_capped. repeat case_decide; try done.
  rewrite _extract_total_amount_eq. unfold labelled_amount.
  destruct (head _) as [am'|] eqn:E.
  - apply head_omap_Some in E as (lm & _ & E%re_search_matched).
    destruct (amount_raw_token _ E) as (_ & _ & Hne).
    simpl. by destruct (amount_token am').
  - rewrite Ham. simpl.
    destruct (amount_raw_token _ (re_search_matched _ _ _ Ham)) as (_ & _ & Hne).
    by destruct (amount_token am).
Qed.

Lemma total_amount_present_witness :
  is_Some (attributes_of
             (extract_attributes_from_email_body (py "Aviso") (py "Pague 1.500 pesos hoy") [])
             !! "total_amount").
Proof.
  apply total_amount_present. eexists. vm_compute. reflexivity.
Defined.

(** ** The entry point on a message object *)

Section EmailProofs.
Variable decode_header : str → outcome (list (fragment * option str)).
Variable decode : bytes → str → outcome str.
Variable feed : str → outcome (list str).

Lemma walk_step_texts lists part :
  walk_step decode lists part =
    (lists.1 ++ option_list (if bool_decide (get_content_type part = py "text/plain")
                             then part_text decode part else None),
     lists.2 ++ option_list (if bool_decide (get_content_type part = py "text/html")
                             then part_text decode part else None)).
Proof.
  destruct lists as [plain html]. unfold walk_step, part_text. cbn [fst snd].
  destruct (str_in _ _).
  { repeat case_bool_decide; simpl; by rewrite !app_nil_r. }
  destruct (get_payload part) as [[[|b0 b]|]|e]; simpl;
    try (repeat case_bool_decide; simpl; by rewrite !app_nil_r).
  destruct (decode _ _) as [text|e]; simpl;
    try (repeat case_bool_decide; simpl; by rewrite !app_nil_r).
  case_bool_decide as E1; simpl.
  - case_bool_decide as E2; simpl; [|by rewrite app_nil_r].
    rewrite E1 in E2. by vm_compute in E2.
  - case_bool_decide as E2; simpl; by rewrite !app_nil_r.
Qed.

Lemma walk_loop_texts parts lists :
  foldl (walk_step decode) lists parts =
    (lists.1 ++ omap (fun part => if bool_decide (get_content_type part = py "text/plain")
                                  then part_text decode part else None) parts,
     lists.2 ++ omap (fun part => if bool_decide (get_content_type part = py "text/html")
                                  then part_text decode part else None) parts).
Proof.
  revert lists. induction parts as [|part parts IH]; intros lists; simpl.
  - rewrite !app_nil_r. by destruct lists.
  - rewrite IH, walk_step_texts. cbn [fst snd]. rewrite <- !app_assoc.
    f_equal; f_equal.
    + by destruct (if bool_decide _ then _ else _).
    + by destruct (if bool_decide (_ = py "text/html") then _ else _).
Qed.

(** X12.  The body of a multipart message is made of the texts of its
    [text/plain] parts, joined by spaces, when there is one; of its
    [text/html] parts, joined and stripped of their tags, otherwise; a part
    counts when it is no attachment, has a payload and its payload can be
    read. *)
Theorem multipart_body_plain_first msg :
  multipart_body decode feed msg =
    match texts_of decode (py "text/plain") msg, texts_of decode (py "text/html") msg with
    | _ :: _, _ => Returns (str_join [32] (texts_of decode (py "text/plain") msg))
    | [], _ :: _ => _strip_html feed (str_join [32] (texts_of decode (py "text/html") msg))
    | [], [] => Returns []
    end.
Proof.
  unfold multipart_body, texts_of. rewrite walk_loop_texts. cbn [fst snd app].
  repeat case_match; (congruence || reflexivity).
Qed.

(** X13.  The call raises exactly when the subject cannot be decoded, with
    the exception of the decoder: no failure in reading a part, its payload,
    its charset or its HTML reaches the caller. *)
Theorem email_raises_iff_subject msg log e :
  (extract_attributes_from_email decode_header decode feed msg log).1 = Raises e
  ↔ decode_subject decode_header decode msg = Raises e.
Proof.
  unfold extract_attributes_from_email.
  destruct (decode_subject _ _ msg) as [subject|e']; simpl.
  - destruct (extract_body _ _ _ _) as [body log'].
    rewrite extract_attributes_from_email_body_eq. simpl.
    split; intros; discriminate.
  - split; intros; congruence.
Qed.

Lemma walk_Multipart part subparts :
  walk (Multipart part subparts) = part :: concat (walk <$> subparts).
Proof.
  simpl. f_equal. induction subparts as [|m ms IH]; [done|]. simpl. by rewrite IH.
Qed.

Lemma starts_with_spec needle s : starts_with needle s = true ↔ ∃ b, s = needle ++ b.
Proof.
  revert s. induction needle as [|a needle IH]; intros s; simpl.
  - split; [by exists s|done].
  - destruct s as [|c s]; [split; [done|by intros [b Hb]]|].
    rewrite andb_true_iff, N.eqb_eq, IH. split.
    + intros [-> [b ->]]. by exists b.
    + intros [b [= -> ->]]. split; [done|by exists b].
Qed.

(** [needle in s] holds exactly when [needle] stands in [s]. *)
Lemma str_in_spec needle s : str_in needle s = true ↔ substring needle s.
Proof.
  induction s as [|c s IH]; simpl.
  - rewrite orb_false_r, starts_with_spec. split.
    + intros [b Hb]. exists [], b. done.
    + intros (a & b & H). destruct a; [by exists b|done].
  - rewrite orb_true_iff, starts_with_spec, IH. split.
    + intros [[b ->]|(a & b & ->)]; [by exists [], b|by exists (c :: a), b].
    + intros (a & b & H). destruct a as [|x a].
      * left. by exists b.
      * right. injection H as -> ->. by exists a, b.
Qed.

Lemma attachment_no_text part :
  substring (py "attachment") (default [] (Content_Disposition part)) →
  part_text decode part = None.
Proof. unfold part_text. by intros ->%str_in_spec. Qed.

Lemma multipart_body_texts m1 m2 :
  (∀ content_type, texts_of decode content_type m1 = texts_of decode content_type m2) →
  multipart_body decode feed m1 = multipart_body decode feed m2.
Proof.
  intros H. unfold multipart_body. rewrite !walk_loop_texts. cbn [fst snd app].
  pose proof (H (py "text/plain")) as Hp. pose proof (H (py "text/html")) as Hh.
  unfold texts_of in Hp, Hh. by rewrite Hp, Hh.
Qed.

Lemma email_same_body m1 m2 log :
  fields m1 = fields m2 → is_multipart m1 = true → is_multipart m2 = true →
  multipart_body decode feed m1 = multipart_body decode feed m2 →
  extract_attributes_from_email decode_header decode feed m1 log =
  extract_attributes_from_email decode_header decode feed m2 log.
Proof.
  intros Hf H1 H2 Hb. unfold extract_attributes_from_email, decode_subject, extract_body.
  by rewrite Hf, H1, H2, Hb.
Qed.

Lemma omap_middle {A B : Type} (g : A → option B) x l1 l2 l2' l3 :
  omap g l2 = omap g l2' →
  omap g (x :: l1 ++ l2 ++ l3) = omap g (x :: l1 ++ l2' ++ l3).
Proof.
  intros H. change (omap g ((x :: l1) ++ l2 ++ l3) = omap g ((x :: l1) ++ l2' ++ l3)).
  by rewrite !omap_app, H.
Qed.

(** X14.  In a multipart message a part marked as an attachment gives
    nothing to the result: the message is read as if the part were not
    there.  When the part is itself a container its subparts are still
    read, in its place. *)
Theorem attachment_ignored top before part after subparts log :
  substring (py "attachment") (default [] (Content_Disposition part)) →
  extract_attributes_from_email decode_header decode feed
    (Multipart top (before ++ Single part :: after)) log =
  extract_attributes_from_email decode_header decode feed
    (Multipart top (before ++ after)) log
  ∧
  extract_attributes_from_email decode_header decode feed
    (Multipart top (before ++ Multipart part subparts :: after)) log =
  extract_attributes_from_email decode_header decode feed
    (Multipart top (before ++ subparts ++ after)) log.
Proof.
  intros Ha%attachment_no_text.
  split; (apply email_same_body; [done..|]); apply multipart_body_texts;
    intros content_type; unfold texts_of; rewrite !walk_Multipart;
    rewrite !fmap_app, !concat_app, !fmap_cons, !concat_cons.
  - rewrite <- (app_nil_l (concat (walk <$> after))) at 2.
    apply omap_middle. cbn [walk omap list_omap]. rewrite Ha. by case_bool_decide.
  - apply omap_middle. rewrite walk_Multipart. cbn [omap list_omap]. rewrite Ha.
    by case_bool_decide.
Qed.
End EmailProofs.

Lemma attachment_ignored_witness :
  extract_attributes_from_email example_decode_header example_decode example_feed
    (Multipart example_top ([Single example_text] ++ Single example_attachment :: [])) [] =
  extract_attributes_from_email example_decode_header example_decode example_feed
    (Multipart example_top ([Single example_text] ++ [])) []
  ∧
  extract_attributes_from_email example_decode_header example_decode example_feed
    (Multipart example_top
       ([Single example_text] ++ Multipart example_attachment [Single example_text] :: [])) [] =
  extract_attributes_from_email example_decode_header example_decode example_feed
    (Multipart example_top ([Single example_text] ++ [Single example_text] ++ [])) [].
Proof.
  apply (attachment_ignored example_decode_header example_decode example_feed).
  by exists [], (py "; filename=notas.txt").
Defined.
